(* ===== verification/_CoqProject ===== *)
-Q . S2P
Prelude.v
F32.v
Decimal.v
Timer.v
Registry.v
Input.v
Engine.v
Score.v
Collision.v
Spawn.v
Game.v
