(* ===== verification/Prelude.v ===== *)
(** * car-hard: a verification development of [src/src/main.rs]

    The program is a small [rusty_engine] game.  [main] (lines 22-40)
    builds the scene: a player sprite labelled ["player"], two texts
    ["score"] and ["high_score"], background music; it then hands the
    per-frame callback [game_logic] (lines 42-142) and the initial
    [GameState] (lines 4-20) to the engine loop.  Each frame,
    [game_logic]
    - sets [should_exit] on a fresh [Q] press (lines 43-46);
    - drains the collision events reported by the engine's physics
      (lines 58-82): a [Begin] event whose pair has a side starting with
      ["player"] removes the non-player side, increments the current score
      (a [u32]), rewrites the score text, raises the high score and its
      text when exceeded, and queues a sound effect;
    - moves the player by [MOVEMENT_SPEED * delta_f32] along each axis whose
      keys are held (lines 84-114), in [f32] arithmetic;
    - spawns a car labelled ["ferris<i>"] at the cursor on a fresh left click
      (lines 116-125) and one labelled ["Ferris<i>"] at a random place each
      time the repeating two-second spawn timer finishes (lines 127-134),
      both minting [i] from the [u32] counter [ferris_index];
    - resets the current score while [R] is held (lines 136-141).

    ** Files, in dependency order (see [_CoqProject])
    - [Prelude] (this file): the [result] type of the program's panics
      ([unwrap] on a missing entry, [u32] overflow of [+= 1] in a debug
      build, a duplicate sprite label) with its bind notation [x <- m ;; k]
      in [game_scope]; [u32_incr] for [+= 1] on a [u32]; the [game] hint
      database and the tactics [result_inv] and [vm_eq].
    - [F32]: [f32] as IEEE-754 binary32 ([SpecFloat] at precision 24 and
      [emax] 128, rounding to nearest even), so the movement is computed bit
      for bit; [Vec2]; the angle constants of [rusty_engine].
    - [Decimal]: [format!("{}")] of a [u32] as [N.to_uint] printed by
      [DecimalString], its parser round trip, the labels [ferris<i>] /
      [Ferris<i>] (lines 118, 128) and score texts (lines 72, 77).
    - [Timer] (Module [Timer]): the engine's [Timer] from spec 4.2 (library
      code) in Bevy's form ([elapsed % duration], [times_finished_this_tick]),
      [tick] / [just_finished] on nanoseconds; the spawn timer of line 17.
    - [Registry]: [engine.sprites] and [engine.texts] as [gmap string _];
      [add_sprite] (spec 4.1, [DuplicateLabel]), [remove_sprite],
      [update_sprite] and [set_text] ([get_mut(..).unwrap()]).
    - [Input]: keyboard and mouse states, [MOVEMENT_SPEED], [move_player]
      (lines 84-114).
    - [Engine]: [Engine], [GameState] (lines 4-9), [GameState_default]
      (lines 11-20), [main_setup] (lines 22-37).
    - [Score]: [register_point] (lines 68-78), [reset_current] (lines
      138-140), the invariant [score_inv], and the interface between the
      tracker and the resolver: the class [ScoreTracker] with its laws
      [ScoreTrackerSpec] and the game's instance on [GameState * Texts].
    - [Collision]: [one_starts_with], the guard [scores], [handle_event] and
      [drain] (lines 58-82), proved in a [Section] against the
      [ScoreTracker] interface; the spec's guard [spec_scores].
    - [Spawn]: [click_spawn] (lines 116-125), [timer_spawn] (lines 127-134)
      and the registry invariant [labels_minted].
    - [Game]: [game_logic] (lines 42-142) composed of the above in source
      order, [frame], the transition relation [step], [reachable] from
      [initial] (line 39), the loop [run], and the invariant [game_inv].

    ** Theorems, by group
    - Invariants: [Game.frame_preserves_inv] and [Game.reachable_inv] (by
      induction on [reachable]): the player exists, the registry is keyed by
      labels minted below [ferris_index], [current_score <= high_score <=
      u32::MAX], the texts show the scores, the timer is the two-second
      repeating one; [Game.reachable_monotone] (induction on [rtc step]):
      the high score and the spawn counter never decrease.
    - Safety: [Game.frame_panics_only_overflow] and
      [Game.reachable_frame_no_lookup_panic]: no [unwrap] and no duplicate
      label ever panics; only the [u32] counters can, near [u32::MAX];
      [Decimal.minted_labels_distinct]: minted labels never collide.
    - Functional behaviour: [Collision.drain_spec] (points, high score,
      removals, sounds of a batch), [Score.register_point_refines] and
      [Score.reset_current_spec] (refinement of the spec's score tracker),
      [Spawn.click_spawn_spec], [Spawn.timer_spawn_spec], and for a whole
      frame [Game.frame_scores] (scores, exit flag, sounds) and
      [Game.frame_sprites] (the player moved, every other sprite removed
      exactly by a scoring event or kept, but for the minted labels);
      [Input.up_down_cancel_at_origin] in binary32; the spawn timer's count
      and absence of drift ([Timer.Timer.spawn_timer_fire_count],
      [Timer.Timer.spawn_timer_no_drift]) and its bound on any frames
      ([Timer.Timer.spawn_timer_fire_bound]).
    - The resolver's guard against the spec's: equal on the labels the game
      mints ([Collision.scores_refines_spec]), and different exactly on the
      events [Collision.scores_spec_disagree] characterises; a [Begin]
      event delivered twice scores twice
      ([Collision.duplicate_begin_scores_twice]).
    - Liveness of the exit key: [Game.run_stops_after_quit].

    ** Bounds and fuel
    [u32] values are [N] with [U32_MAX = 2^32 - 1] and the debug-build
    panic of [+= 1] at the bound.  The loop [run] is structural on the finite
    list of frames the host delivers, so no fuel is needed; a non-ending
    game is the unbounded family of such lists.  Durations are whole
    nanoseconds ([std::time::Duration]); timer counts are exact on [N],
    but for [times_finished_this_tick], cast to a [u32] as the library does.

    ** Not modelled
    - rendering and text placement (lines 48-56: a [cos] of the wall
      clock), [println!] logging, colliders display, audio playback (the
      commands issued are kept as a list);
    - collision detection: the engine supplies the ordered batch of events;
    - [rand::thread_rng().gen_range]: its two draws are inputs of a frame.

    ** Plan for the next steps
    1. Texts: a theorem that after every frame both texts show exactly the
       scores once written (the [":"] of [main]'s initial texts aside).
    2. Engine loop: reachability of the states the spec's examples describe
       (three frames holding [R]; a click at (200, 150)) through [run].
    3. Bounds of the random placement once [gen_range] is modelled from the
       [rand] documentation; [f32] facts on the movement (monotonicity of a
       single held key).
    4. The one-shot timer and the [Timer] laws as a class with the spawn
       timer as its instance.
    5. The movement away from the axis: up and down together move a
       player at [y <> 0] by at most one rounding error (an [f32] error
       bound, in place of a single evaluated input). *)

From stdpp Require Export base list gmap strings.
From Stdlib Require Export ZArith NArith.
From Stdlib Require Import String.

Declare Scope game_scope.
Delimit Scope game_scope with game.
Open Scope N_scope.

(** ** Panics of the Rust program, as values *)

(** The three ways the modelled code can abort a frame: [Option::unwrap]
    on a missing text or sprite, [+= 1] on a [u32] at its maximum (a debug
    build panics with "attempt to add with overflow"), and a sprite label
    added twice, which the spec (section 7) makes fatal. *)
Inductive panic :=
  | NotFound (label : string)
  | Overflow (what : string)
  | DuplicateLabel (label : string).

Inductive result (A : Type) :=
  | Ok (a : A)
  | Err (p : panic).
Arguments Ok {A} a.
Arguments Err {A} p.

Definition rbind {A B} (m : result A) (k : A -> result B) : result B :=
  match m with
  | Ok a => k a
  | Err p => Err p
  end.

Notation "x <- m ;; k" := (rbind m (fun x => k))
  (at level 100, m at next level, right associativity) : game_scope.

(** [Option::unwrap] on a map lookup: [get_mut(label).unwrap()]. *)
Definition unwrap {A} (label : string) (o : option A) : result A :=
  match o with
  | Some a => Ok a
  | None => Err (NotFound label)
  end.

(** ** [u32] *)

Definition U32_MAX : N := 4294967295.

(** [x += 1] on a [u32] field, in a debug build. *)
Definition u32_incr (what : string) (x : N) : result N :=
  if x <? U32_MAX then Ok (N.succ x) else Err (Overflow what).

Definition is_u32 (x : N) : Prop := x <= U32_MAX.

(** ** Generic lemmas *)

Lemma rbind_Ok {A B} (m : result A) (k : A -> result B) b :
  rbind m k = Ok b <-> exists a, m = Ok a /\ k a = Ok b.
Proof. destruct m; simpl; split; naive_solver. Qed.

Lemma unwrap_Ok {A} l (o : option A) a : unwrap l o = Ok a <-> o = Some a.
Proof. destruct o; simpl; split; congruence. Qed.

Lemma u32_incr_Ok what x y : u32_incr what x = Ok y <-> x < U32_MAX /\ y = N.succ x.
Proof.
  unfold u32_incr. destruct (N.ltb_spec x U32_MAX); split; try naive_solver; lia.
Qed.

Lemma u32_incr_bound what x y : u32_incr what x = Ok y -> is_u32 y.
Proof. rewrite u32_incr_Ok. unfold is_u32. lia. Qed.

(** ** Automation *)

Create HintDb game discriminated.
#[export] Hint Resolve u32_incr_bound : game.

(** Split a successful chain of binds and unwraps into its steps. *)
Ltac result_inv :=
  repeat match goal with
  | H : rbind _ _ = Ok _ |- _ =>
      apply rbind_Ok in H as (? & ? & ?)
  | H : unwrap _ _ = Ok _ |- _ => apply unwrap_Ok in H
  | H : u32_incr _ _ = Ok _ |- _ => apply u32_incr_Ok in H as [? ?]
  | H : Ok _ = Ok _ |- _ => injection H as H
  | H : Ok _ = Err _ |- _ => discriminate H
  | H : Err _ = Ok _ |- _ => discriminate H
  end; subst.

(** Close [f x = ?v] for a closed computation [f x], instantiating the
    evars of the right side with the value [vm_compute] finds. *)
Ltac vm_eq :=
  match goal with
  | |- ?a = _ =>
      let v := eval vm_compute in a in
      let H := fresh "Hvm" in
      assert (H : a = v) by (vm_compute; reflexivity);
      rewrite H; reflexivity
  end.
