(* ===== verification/F32.v ===== *)
(** * [f32] and [Vec2]

    Rust's [f32] is IEEE-754 binary32 with rounding to nearest, ties to
    even.  The Standard Library's [SpecFloat] is an executable
    specification of IEEE-754 binary arithmetic, parameterised by the
    precision and the maximal exponent; binary32 is precision 24 and
    [emax] 128.  The arithmetic of the game ([+=], [-=], [*]) is therefore
    modelled bit for bit, and the positions computed by [vm_compute] are the
    ones the program computes.  [Vec2] is [glam]'s two-component vector.
    The angle constants are [rusty_engine]'s, defined there as multiples of
    [std::f32::consts::PI]. *)

From S2P Require Import Prelude.
From Stdlib Require Export Floats.SpecFloat.

Definition f32 := spec_float.

Definition prec32 : Z := 24.
Definition emax32 : Z := 128.

Definition f32_add : f32 -> f32 -> f32 := SFadd prec32 emax32.
Definition f32_sub : f32 -> f32 -> f32 := SFsub prec32 emax32.
Definition f32_mul : f32 -> f32 -> f32 := SFmul prec32 emax32.
Definition f32_div : f32 -> f32 -> f32 := SFdiv prec32 emax32.

(** The [f32] nearest to an integer (exact below [2^24]). *)
Definition f32_of_Z (z : Z) : f32 := binary_normalize prec32 emax32 z 0 false.

(** A decimal literal [n / d] of the source, rounded once as [rustc] does:
    the division of two exact integers is correctly rounded. *)
Definition f32_lit (n d : Z) : f32 := f32_div (f32_of_Z n) (f32_of_Z d).

Definition f32_zero : f32 := S754_zero false.

#[export] Instance f32_eq_dec : EqDecision f32.
Proof. solve_decision. Defined.

Declare Scope f32_scope.
Delimit Scope f32_scope with f32.
Infix "+" := f32_add : f32_scope.
Infix "-" := f32_sub : f32_scope.
Infix "*" := f32_mul : f32_scope.

(** [glam::Vec2]. *)
Record Vec2 := mkVec2 { vx : f32; vy : f32 }.

#[export] Instance Vec2_eq_dec : EqDecision Vec2.
Proof. solve_decision. Defined.

(** [Vec2::new(0.0, 0.0)], also [Vec2::ZERO]. *)
Definition Vec2_ZERO : Vec2 := mkVec2 f32_zero f32_zero.

Definition set_vx (v : Vec2) (x : f32) : Vec2 := mkVec2 x (vy v).
Definition set_vy (v : Vec2) (y : f32) : Vec2 := mkVec2 (vx v) y.

(** [std::f32::consts::PI], the binary32 number nearest to pi:
    [13176795 * 2^-22 = 3.14159274...]. *)
Definition PI : f32 := S754_finite false 13176795 (-22).

(** [rusty_engine::prelude::SOUTH_WEST = PI * 1.25] and
    [SOUTH_EAST = PI * 1.75]. *)
Definition SOUTH_WEST : f32 := f32_mul PI (f32_lit 5 4).
Definition SOUTH_EAST : f32 := f32_mul PI (f32_lit 7 4).

(** ** Facts of binary32 arithmetic *)

Definition f32_is_finite (x : f32) : bool :=
  match x with S754_finite _ _ _ | S754_zero _ => true | _ => false end.

(** [x - x] is [+0.0] for every finite [x] (rounding to nearest). *)
Lemma f32_sub_self (x : f32) : f32_is_finite x = true -> f32_sub x x = f32_zero.
Proof.
  destruct x as [[]|[]| |s m e]; try done. intros _.
  unfold f32_sub, SFsub. rewrite Z.min_id. unfold shl_align. rewrite Z.sub_diag.
  simpl. done.
Qed.

(** Adding a finite [x] to a zero gives [x], up to the sign of a zero. *)
Lemma f32_zero_add (s : bool) (x : f32) :
  f32_is_finite x = true ->
  f32_add (S754_zero s) x = x \/ (exists s', x = S754_zero s' /\ f32_add (S754_zero s) x = f32_zero).
Proof. destruct x as [[]|[]| |sx m e], s; try done; (left; done) || (right; eauto). Qed.
