(* ===== verification/Decimal.v ===== *)
(** * Decimal formatting and the strings of the game

    [format!("{}", n)] on a [u32] prints [n] in decimal without leading
    zeros; the Standard Library's [N.to_uint] followed by
    [NilEmpty.string_of_uint] is that printer.  The game builds four kinds
    of strings with it: the labels of the cars spawned on a click
    ([format!("ferris{}", i)], line 118) and by the timer
    ([format!("Ferris{}", i)], line 128), and the texts of the current and
    high score (lines 72 and 77).  This file proves the printer injective
    (through the Standard Library's parser round trip) and derives that
    minted labels never collide with each other nor with ["player"]. *)

From S2P Require Import Prelude.
From Stdlib Require Import DecimalString DecimalN.

(** [<u32 as Display>::fmt]. *)
Definition u32_to_string (n : N) : string :=
  NilEmpty.string_of_uint (N.to_uint n).

(** [str::parse::<u32>] restricted to what the printer produces; used to
    state the round trip. *)
Definition u32_of_string (s : string) : option N :=
  N.of_uint <$> NilEmpty.uint_of_string s.

(** [format!("ferris{}", game_state.ferris_index)], line 118. *)
Definition click_label (i : N) : string := String.append "ferris" (u32_to_string i).

(** [format!("Ferris{}", game_state.ferris_index)], line 128. *)
Definition timer_label (i : N) : string := String.append "Ferris" (u32_to_string i).

(** [format!("Score {}", game_state.current_score)], line 72. *)
Definition score_text (n : N) : string := String.append "Score " (u32_to_string n).

(** [format!("High Score {}", game_state.current_score)], line 77. *)
Definition high_score_text (n : N) : string :=
  String.append "High Score " (u32_to_string n).

(** [str::starts_with]: [s.starts_with(p)]. *)
Definition starts_with (s p : string) : bool := String.prefix p s.

(** The label of the player sprite, line 24. *)
Definition PLAYER : string := "player".

(** ** Printing and parsing *)

Lemma u32_string_roundtrip n : u32_of_string (u32_to_string n) = Some n.
Proof.
  unfold u32_of_string, u32_to_string. rewrite NilEmpty.usu. simpl.
  by rewrite DecimalN.Unsigned.of_to.
Qed.

Lemma u32_to_string_inj n m : u32_to_string n = u32_to_string m -> n = m.
Proof.
  intros H. apply (f_equal u32_of_string) in H.
  rewrite !u32_string_roundtrip in H. congruence.
Qed.

(** Appending to a fixed prefix is injective. *)
Lemma append_inj_l (p s1 s2 : string) :
  String.append p s1 = String.append p s2 -> s1 = s2.
Proof. induction p as [|c p IH]; simpl; [done|]. intros [= ?]. auto. Qed.

#[export] Hint Resolve u32_to_string_inj : game.

(** ** The labels minted by the game *)

Lemma click_label_inj i j : click_label i = click_label j -> i = j.
Proof. intros H. apply append_inj_l in H. auto with game. Qed.

Lemma timer_label_inj i j : timer_label i = timer_label j -> i = j.
Proof. intros H. apply append_inj_l in H. auto with game. Qed.

Lemma click_timer_label_ne i j : click_label i <> timer_label j.
Proof. discriminate. Qed.

Lemma click_label_not_player i : click_label i <> PLAYER.
Proof. discriminate. Qed.

Lemma timer_label_not_player i : timer_label i <> PLAYER.
Proof. discriminate. Qed.

Lemma click_label_no_player_prefix i : starts_with (click_label i) PLAYER = false.
Proof. reflexivity. Qed.

Lemma timer_label_no_player_prefix i : starts_with (timer_label i) PLAYER = false.
Proof. reflexivity. Qed.

(** C18: the labels the game mints never collide: a click label is never a
    timer label, each kind is injective in the counter, and neither is the
    player's label. *)
Theorem minted_labels_distinct i j :
  click_label i <> timer_label j
  /\ (click_label i = click_label j <-> i = j)
  /\ (timer_label i = timer_label j <-> i = j)
  /\ click_label i <> PLAYER /\ timer_label i <> PLAYER.
Proof.
  split_and!; [apply click_timer_label_ne| | |apply click_label_not_player|apply timer_label_not_player].
  - split; [apply click_label_inj|by intros ->].
  - split; [apply timer_label_inj|by intros ->].
Qed.

#[export] Hint Resolve click_label_not_player timer_label_not_player
  click_timer_label_ne : game.
