(* ===== verification/Timer.v ===== *)
(** * The spawn timer

    [GameState::spawn_timer] (line 8) is the engine's [Timer] (Bevy's,
    re-exported by [rusty_engine]), created by [Timer::from_seconds(2.0,
    true)] (line 17) and advanced once a frame by [tick(engine.delta)]
    (line 127).  The timer is library code, not under [src/]; it is
    modelled from the spec (section 4.2) in the form the library gives it:
    [tick] adds the frame's duration to the elapsed time; once the elapsed
    time reaches the duration a repeating timer re-arms by subtracting the
    duration for every duration crossed ([elapsed % duration]), carrying
    the overshoot, and records the count in [times_finished_this_tick]; a
    one-shot timer stops at its duration and reports [just_finished] only
    once.  [just_finished] is [times_finished_this_tick > 0].  Durations
    are [std::time::Duration], whole nanoseconds, hence [N]; pausing is not
    modelled (the game never pauses its timer).

    The theorems: over frames no longer than the duration the timer fires
    exactly [(elapsed + total) / duration] times and ends at the remainder,
    whatever the partition of the total (no drift); over any frames it
    fires at most once a frame and at most [(elapsed + total) / duration]
    times, and still carries the remainder; a one-shot timer fires once. *)

From S2P Require Import Prelude.

Module Timer.

Record Timer := mkTimer {
  duration : N;                  (** nanoseconds *)
  elapsed : N;                   (** nanoseconds since the last re-arm *)
  repeating : bool;
  finished : bool;
  times_finished_this_tick : N   (** a [u32] *)
}.

(** [Timer::from_seconds], with the duration already in nanoseconds. *)
Definition from_nanos (d : N) (repeat : bool) : Timer :=
  mkTimer d 0 repeat false 0.

(** [Timer::from_seconds(2.0, true)], line 17. *)
Definition spawn_timer_init : Timer := from_nanos 2000000000 true.

(** [Timer::tick(delta)] (the timer is never paused in this game).  A
    finished one-shot timer does nothing; otherwise the elapsed time grows
    by [delta] and, once it reaches the duration, a repeating timer counts
    the durations crossed ([checked_div], [u32::MAX] on a zero duration,
    cast [as u32]) and keeps the rest ([checked_rem], zero on a zero
    duration): the spec's "subtract the duration, carry the overshoot" for
    every duration crossed; a one-shot timer stops at its duration. *)
Definition tick (delta : N) (t : Timer) : Timer :=
  if negb (repeating t) && finished t then
    mkTimer (duration t) (elapsed t) false true 0
  else
    let e := elapsed t + delta in
    if duration t <=? e then
      if repeating t then
        if duration t =? 0 then mkTimer (duration t) 0 true true U32_MAX
        else mkTimer (duration t) (e mod duration t) true true
               ((e / duration t) mod (U32_MAX + 1))
      else mkTimer (duration t) (duration t) false true 1
    else mkTimer (duration t) e (repeating t) false 0.

(** [Timer::just_finished()]. *)
Definition just_finished (t : Timer) : bool := 0 <? times_finished_this_tick t.

(** A sequence of frames: the timer after them, and how many ticks fired. *)
Fixpoint ticks (ds : list N) (t : Timer) : Timer :=
  match ds with
  | [] => t
  | d :: ds' => ticks ds' (tick d t)
  end.

Fixpoint fire_count (ds : list N) (t : Timer) : N :=
  match ds with
  | [] => 0
  | d :: ds' =>
      let t' := tick d t in
      (if just_finished t' then 1 else 0) + fire_count ds' t'
  end.

(** The well-formedness of a running repeating timer. *)
Definition armed (t : Timer) : Prop :=
  repeating t = true /\ 0 < duration t /\ elapsed t < duration t.

(** ** One tick *)

Lemma tick_duration d t : duration (tick d t) = duration t.
Proof. unfold tick. repeat case_match; done. Qed.

Lemma tick_repeating_repeating d t :
  repeating t = true -> repeating (tick d t) = true.
Proof. intros Hr. unfold tick. rewrite Hr. simpl. by repeat case_match. Qed.

(** A running repeating timer keeps the elapsed time modulo its duration. *)
Lemma tick_repeating_elapsed d t :
  repeating t = true -> 0 < duration t ->
  elapsed (tick d t) = (elapsed t + d) mod duration t.
Proof.
  intros Hr Hpos. unfold tick. rewrite Hr. simpl.
  destruct (N.leb_spec (duration t) (elapsed t + d)); simpl; [|rewrite N.mod_small; lia].
  destruct (N.eqb_spec (duration t) 0); [lia|done].
Qed.

(** A firing tick consumes at least one duration of the elapsed time. *)
Lemma mod_add_le (D e : N) : 0 < D -> D <= e -> e mod D + D <= e.
Proof.
  intros HD He. pose proof (N.div_mod e D) as Hdm.
  assert (1 <= e / D) by (apply N.div_le_lower_bound; lia). nia.
Qed.

(** What is left plus one duration per firing never exceeds what was
    there plus the frame. *)
Lemma tick_repeating_consumes d t :
  repeating t = true ->
  elapsed (tick d t) + (if just_finished (tick d t) then duration t else 0) <= elapsed t + d.
Proof.
  intros Hr. unfold tick, just_finished. rewrite Hr. simpl.
  destruct (N.leb_spec (duration t) (elapsed t + d)) as [Hle|Hlt]; simpl; [|lia].
  destruct (N.eqb_spec (duration t) 0) as [H0|H0]; simpl; [lia|].
  pose proof (N.Div0.mod_le (elapsed t + d) (duration t)).
  pose proof (mod_add_le (duration t) (elapsed t + d) ltac:(lia) Hle).
  destruct (0 <? _); lia.
Qed.

(** A frame no longer than the duration fires exactly when it reaches it. *)
Lemma tick_armed_step d t :
  armed t -> d <= duration t ->
  just_finished (tick d t) = (duration t <=? elapsed t + d)
  /\ elapsed (tick d t) = (elapsed t + d) mod duration t.
Proof.
  intros (Hr & Hpos & Hlt) Hd. split; [|by apply tick_repeating_elapsed].
  unfold tick, just_finished. rewrite Hr. simpl.
  destruct (N.leb_spec (duration t) (elapsed t + d)); [|done].
  destruct (N.eqb_spec (duration t) 0); [lia|simpl].
  assert (Hq : (elapsed t + d) / duration t = 1).
  { symmetry. apply (N.div_unique _ _ _ (elapsed t + d - duration t)); lia. }
  by rewrite Hq.
Qed.

(** A frame no longer than the duration leaves the timer armed. *)
Lemma tick_armed d t : armed t -> d <= duration t -> armed (tick d t).
Proof.
  intros (Hr & Hpos & Hlt) Hd. split; [by apply tick_repeating_repeating|].
  rewrite tick_duration, tick_repeating_elapsed by done.
  split; [done|]. by apply N.mod_lt; lia.
Qed.

(** Euclidean division after adding one more frame. *)
Lemma div_mod_step (D e d r : N) :
  0 < D -> e < D -> d <= D ->
  (e + (d + r)) / D = (if D <=? e + d then 1 else 0) + ((e + d) mod D + r) / D
  /\ (e + (d + r)) mod D = ((e + d) mod D + r) mod D.
Proof.
  intros HD He Hd.
  destruct (N.leb_spec D (e + d)) as [Hle|Hlt].
  - assert (Hm : (e + d) mod D = e + d - D).
    { symmetry. apply (N.mod_unique _ _ 1); lia. }
    rewrite Hm.
    replace (e + (d + r)) with ((e + d - D + r) + 1 * D) by lia.
    rewrite N.div_add, N.Div0.mod_add by lia. lia.
  - rewrite N.mod_small by lia. rewrite N.add_assoc. lia.
Qed.

Lemma tick_oneshot_finished d t :
  repeating t = false -> finished t = true ->
  just_finished (tick d t) = false /\ repeating (tick d t) = false
  /\ finished (tick d t) = true.
Proof. intros Hr Hf. unfold tick. by rewrite Hr, Hf. Qed.

Lemma tick_oneshot d t :
  repeating t = false -> finished t = false ->
  repeating (tick d t) = false
  /\ finished (tick d t) = just_finished (tick d t).
Proof. intros Hr Hf. unfold tick. rewrite Hr, Hf. simpl. by destruct (_ <=? _). Qed.

(** ** Sequences of frames *)

Definition total (ds : list N) : N := foldr N.add 0 ds.

(** The number of firings is [(elapsed + total) / duration] and the carry
    is the remainder, as long as no frame lasts longer than the duration. *)
Theorem timer_fire_count ds t :
  armed t -> Forall (fun d => d <= duration t) ds ->
  fire_count ds t = (elapsed t + total ds) / duration t
  /\ elapsed (ticks ds t) = (elapsed t + total ds) mod duration t.
Proof.
  revert t. induction ds as [|d ds IH]; intros t Ha Hds; simpl.
  - destruct Ha as (_ & ? & ?). rewrite N.add_0_r, N.div_small, N.mod_small; lia.
  - apply Forall_cons in Hds as [Hd Hds].
    pose proof (tick_armed _ _ Ha Hd) as Ha'.
    destruct (tick_armed_step _ _ Ha Hd) as [Hj He].
    assert (HD : duration (tick d t) = duration t) by apply tick_duration.
    destruct (IH (tick d t)) as [IHc IHe]; [done|by rewrite HD|].
    rewrite IHc, IHe, He, HD, Hj. destruct Ha as (_ & ? & ?).
    destruct (div_mod_step (duration t) (elapsed t) d (total ds)) as [-> ->]; try lia.
Qed.

(** Two frame sequences of the same total duration, with frames no longer
    than the timer's duration, fire as often and leave the same carry. *)
Corollary timer_no_drift ds1 ds2 t :
  armed t ->
  Forall (fun d => d <= duration t) ds1 ->
  Forall (fun d => d <= duration t) ds2 ->
  total ds1 = total ds2 ->
  fire_count ds1 t = fire_count ds2 t
  /\ elapsed (ticks ds1 t) = elapsed (ticks ds2 t).
Proof.
  intros Ha H1 H2 Ht.
  destruct (timer_fire_count ds1 t Ha H1) as [-> ->].
  destruct (timer_fire_count ds2 t Ha H2) as [-> ->].
  by rewrite Ht.
Qed.

(** A one-shot timer fires at most once, and never again once finished. *)
Theorem timer_oneshot_once ds t :
  repeating t = false ->
  fire_count ds t <= if finished t then 0 else 1.
Proof.
  revert t. induction ds as [|d ds IH]; intros t Hr; simpl; [by destruct (finished t); lia|].
  destruct (finished t) eqn:Hf.
  - destruct (tick_oneshot_finished d t) as (-> & Hr' & Hf'); [done..|].
    specialize (IH _ Hr'). rewrite Hf' in IH. lia.
  - destruct (tick_oneshot d t) as [Hr' Hf']; [done..|].
    specialize (IH _ Hr'). rewrite Hf' in IH. destruct (just_finished _); lia.
Qed.

(** On a repeating timer, what is left plus one duration per firing
    never exceeds what was there plus the frames' time. *)
Lemma ticks_consumes ds t :
  repeating t = true ->
  elapsed (ticks ds t) + duration t * fire_count ds t <= elapsed t + total ds.
Proof.
  revert t. induction ds as [|d ds IH]; intros t Hr; simpl; [lia|].
  specialize (IH (tick d t) (tick_repeating_repeating d t Hr)).
  rewrite tick_duration in IH. pose proof (tick_repeating_consumes d t Hr).
  destruct (just_finished (tick d t)); lia.
Qed.

(** Whatever the frames, a running repeating timer carries the elapsed
    time modulo its duration. *)
Lemma ticks_elapsed ds t :
  armed t -> elapsed (ticks ds t) = (elapsed t + total ds) mod duration t.
Proof.
  revert t. induction ds as [|d ds IH]; intros t (Hr & Hpos & Hlt); simpl.
  - rewrite N.add_0_r, N.mod_small; lia.
  - assert (He : elapsed (tick d t) = (elapsed t + d) mod duration t)
      by (by apply tick_repeating_elapsed).
    rewrite IH, tick_duration, He; [by rewrite N.Div0.add_mod_idemp_l, N.add_assoc|].
    split_and!; [by apply tick_repeating_repeating|by rewrite tick_duration|].
    rewrite He, tick_duration. apply N.mod_lt. lia.
Qed.

(** At most one firing per tick. *)
Lemma fire_count_le_length ds t : fire_count ds t <= N.of_nat (length ds).
Proof.
  revert t. induction ds as [|d ds IH]; intros t; simpl; [lia|].
  specialize (IH (tick d t)). destruct (just_finished _); lia.
Qed.


Lemma spawn_timer_init_armed : armed spawn_timer_init.
Proof. split_and!; simpl; [done|lia|lia]. Qed.

(** ** The spawn timer of the game *)

(** C14: the spawn timer of line 17, ticked by frames of at most two
    seconds each, finishes exactly [total / 2 s] times (one spawn each) and
    carries the remainder into the next frame. *)
Theorem spawn_timer_fire_count ds :
  Forall (fun d => d <= 2000000000) ds ->
  fire_count ds spawn_timer_init = total ds / 2000000000
  /\ elapsed (ticks ds spawn_timer_init) = total ds mod 2000000000.
Proof. intros Hds. apply (timer_fire_count ds spawn_timer_init spawn_timer_init_armed Hds). Qed.

(** Three frames of 0.7 s: one spawn, 0.1 s carried. *)
Lemma spawn_timer_fire_count_witness :
  fire_count [700000000; 700000000; 700000000] spawn_timer_init
    = total [700000000; 700000000; 700000000] / 2000000000
  /\ elapsed (ticks [700000000; 700000000; 700000000] spawn_timer_init)
    = total [700000000; 700000000; 700000000] mod 2000000000.
Proof. apply spawn_timer_fire_count. repeat constructor; lia. Defined.

(** C15: no drift: two sequences of frames of at most two seconds with the
    same total time spawn as often and leave the same carry, however the
    time is split into frames. *)
Theorem spawn_timer_no_drift ds1 ds2 :
  Forall (fun d => d <= 2000000000) ds1 -> Forall (fun d => d <= 2000000000) ds2 ->
  total ds1 = total ds2 ->
  fire_count ds1 spawn_timer_init = fire_count ds2 spawn_timer_init
  /\ elapsed (ticks ds1 spawn_timer_init) = elapsed (ticks ds2 spawn_timer_init).
Proof. intros H1 H2 Ht. exact (timer_no_drift ds1 ds2 spawn_timer_init spawn_timer_init_armed H1 H2 Ht). Qed.

Lemma spawn_timer_no_drift_witness :
  fire_count [1500000000; 1500000000] spawn_timer_init
    = fire_count [2000000000; 1000000000] spawn_timer_init
  /\ elapsed (ticks [1500000000; 1500000000] spawn_timer_init)
     = elapsed (ticks [2000000000; 1000000000] spawn_timer_init).
Proof. apply spawn_timer_no_drift; [repeat constructor; lia..|reflexivity]. Defined.

(** C20: whatever the frame lengths, even frames longer than two seconds,
    the spawn timer spawns at most once per frame, never more than
    [total / 2 s] times, and carries exactly [total mod 2 s] into the next
    frame: the durations a long frame crosses are all consumed, one spawn
    is made for them (the game reads [just_finished], not
    [times_finished_this_tick]). *)
Theorem spawn_timer_fire_bound ds :
  fire_count ds spawn_timer_init <= N.of_nat (length ds)
  /\ fire_count ds spawn_timer_init <= total ds / 2000000000
  /\ elapsed (ticks ds spawn_timer_init) = total ds mod 2000000000.
Proof.
  split_and!; [apply fire_count_le_length| |apply ticks_elapsed, spawn_timer_init_armed].
  pose proof (ticks_consumes ds spawn_timer_init eq_refl) as Hc. simpl in Hc.
  apply N.div_le_lower_bound; lia.
Qed.

End Timer.
