(* ===== verification/Registry.v ===== *)
(** * The entity registry: sprites and texts

    [rusty_engine]'s [Engine] keeps its sprites in [engine.sprites], a
    [HashMap<String, Sprite>] keyed by label, and its texts in
    [engine.texts], a [HashMap<String, Text>].  The game uses
    [add_sprite(label, preset)] (lines 24, 120, 130), [sprites.remove]
    (line 64), [sprites.get_mut(label).unwrap()] (line 84) and
    [texts.get_mut(label).unwrap()] (lines 50, 54, 71, 76, 139), then
    writes fields through the returned reference.  The maps are [gmap]s;
    the engine code is not under [src/]: [add_sprite] follows the spec
    (section 4.1), which makes a second sprite with a present label the
    error [DuplicateLabel]; [remove] is [HashMap::remove], a no-op on an
    absent label.  A sprite keeps the fields the game reads or writes
    (label, preset, translation, rotation, collision flag); a text keeps its
    value (its placement is rendering, not modelled). *)

From S2P Require Import Prelude F32.
Open Scope game_scope.
Open Scope N_scope.

(** The two presets the game uses, of [rusty_engine]'s [SpritePreset]. *)
Inductive SpritePreset := RacingCarBlue | RacingCarYellow.

#[export] Instance SpritePreset_eq_dec : EqDecision SpritePreset.
Proof. solve_decision. Defined.

Record Sprite := mkSprite {
  label : string;
  preset : SpritePreset;
  translation : Vec2;
  rotation : f32;
  collision : bool
}.

(** [Sprite::new(label, preset)]: at the origin, unrotated, no collider. *)
Definition Sprite_new (l : string) (p : SpritePreset) : Sprite :=
  mkSprite l p Vec2_ZERO f32_zero false.

Definition set_translation (s : Sprite) (v : Vec2) : Sprite :=
  mkSprite (label s) (preset s) v (rotation s) (collision s).
Definition set_rotation (s : Sprite) (r : f32) : Sprite :=
  mkSprite (label s) (preset s) (translation s) r (collision s).
Definition set_collision (s : Sprite) (c : bool) : Sprite :=
  mkSprite (label s) (preset s) (translation s) (rotation s) c.

Record Text := mkText { text_label : string; value : string }.

(** [Text::new(label, value)]. *)
Definition Text_new (l v : string) : Text := mkText l v.

Definition set_value (t : Text) (v : string) : Text := mkText (text_label t) v.

Abbreviation Sprites := (gmap string Sprite).
Abbreviation Texts := (gmap string Text).

(** [engine.add_sprite(label, preset)]: a fresh sprite under a label that
    must be new (spec 4.1). *)
Definition add_sprite (l : string) (p : SpritePreset) (m : Sprites) : result Sprites :=
  match m !! l with
  | Some _ => Err (DuplicateLabel l)
  | None => Ok (<[l := Sprite_new l p]> m)
  end.

(** [engine.sprites.remove(&label)]. *)
Definition remove_sprite (l : string) (m : Sprites) : Sprites := delete l m.

(** [let s = engine.sprites.get_mut(l).unwrap(); <writes of f>]. *)
Definition update_sprite (l : string) (f : Sprite -> Sprite) (m : Sprites) : result Sprites :=
  s <- unwrap l (m !! l) ;; Ok (<[l := f s]> m).

(** [engine.add_text(label, value)]. *)
Definition add_text (l v : string) (m : Texts) : Texts := <[l := Text_new l v]> m.

(** [engine.texts.get_mut(l).unwrap().value = v]. *)
Definition set_text (l v : string) (m : Texts) : result Texts :=
  t <- unwrap l (m !! l) ;; Ok (<[l := set_value t v]> m).

(** ** Lemmas of the registry *)

Lemma add_sprite_Ok l p m m' :
  add_sprite l p m = Ok m' <-> m !! l = None /\ m' = <[l := Sprite_new l p]> m.
Proof. unfold add_sprite. destruct (m !! l); split; naive_solver. Qed.

Lemma add_sprite_fresh l p m : m !! l = None -> add_sprite l p m = Ok (<[l := Sprite_new l p]> m).
Proof. intros H. by apply add_sprite_Ok. Qed.

Lemma set_text_Ok l v m m' :
  set_text l v m = Ok m' <-> exists t, m !! l = Some t /\ m' = <[l := set_value t v]> m.
Proof. unfold set_text. rewrite rbind_Ok. setoid_rewrite unwrap_Ok. naive_solver. Qed.

Lemma set_text_present l v m :
  is_Some (m !! l) -> exists m', set_text l v m = Ok m'.
Proof. intros [t Ht]. unfold set_text. rewrite Ht. simpl. eauto. Qed.

Lemma set_text_dom l v m m' : set_text l v m = Ok m' -> dom m' = dom m.
Proof.
  rewrite set_text_Ok. intros (t & Ht & ->). rewrite dom_insert_L.
  apply elem_of_dom_2 in Ht. set_solver.
Qed.

Lemma set_text_other l l' v m m' :
  l <> l' -> set_text l v m = Ok m' -> m' !! l' = m !! l'.
Proof. intros Hne. rewrite set_text_Ok. intros (t & _ & ->). by rewrite lookup_insert_ne. Qed.

#[export] Hint Resolve set_text_dom : game.
