(* ===== verification/Input.v ===== *)
(** * The input mapper

    [engine.keyboard_state] and [engine.mouse_state] are the engine's view
    of the devices for the current frame (spec section 6): the keys held,
    the keys and buttons pressed since the last frame, and the cursor
    position in world coordinates when it is over the window.  The game
    reads them with [pressed_any] (lines 88-111), [pressed] (line 137) and
    [just_pressed] (lines 44, 116), and [mouse_state.location()] (line 117).

    The movement (lines 84-114) adds or subtracts
    [MOVEMENT_SPEED * engine.delta_f32] to one coordinate of the player per
    held direction, in four independent [if]s, so opposite keys both apply.
    The arithmetic is binary32: up and down together leave a player on the
    horizontal axis exactly on it, whatever the frame time; elsewhere the
    product is added and then subtracted, with two roundings, and the
    ordinate is only kept up to them. *)

From S2P Require Import Prelude F32 Registry.
Open Scope game_scope.
Open Scope N_scope.

(** The keys the game reads, of [KeyCode] ([KeyCode::Q] is [KeyQ], and so on for the letters, which would clash with Rocq's names); every other key is [OtherKey]. *)
Inductive KeyCode :=
  | KeyQ | KeyR | KeyW | KeyA | KeyS | KeyD | Up | Down | Left | Right
  | OtherKey (scan : N).

#[export] Instance KeyCode_eq_dec : EqDecision KeyCode.
Proof. solve_decision. Defined.

Inductive MouseButton := MouseLeft | MouseRight | MouseMiddle | MouseOther (n : N).

#[export] Instance MouseButton_eq_dec : EqDecision MouseButton.
Proof. solve_decision. Defined.

(** [KeyboardState]: keys down this frame, and keys that went down this
    frame. *)
Record KeyboardState := mkKeyboard { keys_held : list KeyCode; keys_just : list KeyCode }.

(** [MouseState]: buttons that went down this frame, and the cursor. *)
Record MouseState := mkMouse {
  buttons_just : list MouseButton;
  location : option Vec2
}.

(** [KeyboardState::pressed(key)]. *)
Definition pressed (kb : KeyboardState) (k : KeyCode) : bool :=
  bool_decide (k ∈ keys_held kb).

(** [KeyboardState::pressed_any(&[keys])]. *)
Definition pressed_any (kb : KeyboardState) (ks : list KeyCode) : bool :=
  existsb (pressed kb) ks.

(** [KeyboardState::just_pressed(key)]. *)
Definition key_just_pressed (kb : KeyboardState) (k : KeyCode) : bool :=
  bool_decide (k ∈ keys_just kb).

(** [MouseState::just_pressed(button)]. *)
Definition mouse_just_pressed (ms : MouseState) (b : MouseButton) : bool :=
  bool_decide (b ∈ buttons_just ms).

(** [const MOVEMENT_SPEED: f32 = 100.0], line 86. *)
Definition MOVEMENT_SPEED : f32 := f32_of_Z 100.

(** One direction: [player.translation.c ±= MOVEMENT_SPEED * engine.delta_f32]. *)
Definition step_y (up : bool) (dt : f32) (s : Sprite) : Sprite :=
  let t := translation s in
  let d := f32_mul MOVEMENT_SPEED dt in
  set_translation s (set_vy t (if up then f32_add (vy t) d else f32_sub (vy t) d)).

Definition step_x (right : bool) (dt : f32) (s : Sprite) : Sprite :=
  let t := translation s in
  let d := f32_mul MOVEMENT_SPEED dt in
  set_translation s (set_vx t (if right then f32_add (vx t) d else f32_sub (vx t) d)).

(** Lines 88-114: the four independent [if]s, in the source's order. *)
Definition move_player (kb : KeyboardState) (dt : f32) (p : Sprite) : Sprite :=
  let p := if pressed_any kb [Up; KeyW] then step_y true dt p else p in
  let p := if pressed_any kb [Down; KeyS] then step_y false dt p else p in
  let p := if pressed_any kb [Right; KeyD] then step_x true dt p else p in
  if pressed_any kb [Left; KeyA] then step_x false dt p else p.

(** ** Lemmas *)

Lemma move_player_frame kb dt p :
  label (move_player kb dt p) = label p
  /\ preset (move_player kb dt p) = preset p
  /\ rotation (move_player kb dt p) = rotation p
  /\ collision (move_player kb dt p) = collision p.
Proof.
  unfold move_player.
  destruct (pressed_any kb [Up; KeyW]), (pressed_any kb [Down; KeyS]),
    (pressed_any kb [Right; KeyD]), (pressed_any kb [Left; KeyA]); done.
Qed.

(** ** The movement theorems *)

Section Movement.
Context (kb : KeyboardState) (dt : f32) (p : Sprite).
Hypothesis Hup : pressed_any kb [Up; KeyW] = true.
Hypothesis Hdown : pressed_any kb [Down; KeyS] = true.
Hypothesis Hright : pressed_any kb [Right; KeyD] = false.
Hypothesis Hleft : pressed_any kb [Left; KeyA] = false.

(** Up and down held together: the player's ordinate becomes
    [(y + speed * dt) - speed * dt] and its abscissa is untouched. *)
Lemma move_player_up_down :
  translation (move_player kb dt p) =
    let d := f32_mul MOVEMENT_SPEED dt in
    mkVec2 (vx (translation p)) (f32_sub (f32_add (vy (translation p)) d) d).
Proof. unfold move_player. by rewrite Hup, Hdown, Hright, Hleft. Qed.

(** C16: up and down held together leave a player on the horizontal axis
    exactly on it, whatever the frame time, as long as the step
    [MOVEMENT_SPEED * delta_f32] is finite (spec section 8's example). *)
Theorem up_down_cancel_at_origin (s : bool) :
  vy (translation p) = S754_zero s ->
  f32_is_finite (f32_mul MOVEMENT_SPEED dt) = true ->
  translation (move_player kb dt p) = mkVec2 (vx (translation p)) f32_zero.
Proof.
  intros Hy Hfin. rewrite move_player_up_down, Hy. cbv zeta. f_equal.
  destruct (f32_zero_add s _ Hfin) as [-> | (s' & -> & ->)].
  - by apply f32_sub_self.
  - by destruct s'.
Qed.
End Movement.

(** The keyboard of spec section 8's example: [Up] and [Down] held. *)
Definition kb_up_down : KeyboardState := mkKeyboard [Up; Down] [].

Definition player_at (x y : f32) : Sprite :=
  mkSprite "player" RacingCarBlue (mkVec2 x y) SOUTH_WEST true.

Lemma up_down_cancel_at_origin_witness :
  translation (move_player kb_up_down (f32_of_Z 1) (player_at f32_zero f32_zero))
  = mkVec2 (vx (translation (player_at f32_zero f32_zero))) f32_zero.
Proof.
  apply (up_down_cancel_at_origin kb_up_down (f32_of_Z 1) (player_at f32_zero f32_zero)
           ltac:(reflexivity) ltac:(reflexivity) ltac:(reflexivity) ltac:(reflexivity) false);
    vm_compute; reflexivity.
Defined.

