(* ===== verification/Engine.v ===== *)
(** * The engine state, the game state and the scene of [main]

    [GameState] (lines 4-9) is the game's own state, owned by the engine
    loop and passed to [game_logic] by [&mut]; [GameState::default] is
    lines 11-20.  [Engine] is [rusty_engine]'s per-frame context as far as
    the game uses it: the sprite and text registries, the device states, the
    collision events of the frame, the frame time (as a [Duration] and as an
    [f32]), the audio commands issued, and the two flags the game sets.
    [main] (lines 22-40) builds the initial engine: the player sprite, the
    two texts, the music. *)

From S2P Require Import Prelude F32 Decimal Timer Registry Input.
Open Scope game_scope.
Open Scope N_scope.

(** [CollisionState] and [CollisionEvent] of [rusty_engine]. *)
Inductive CollisionState := Begin | End.

#[export] Instance CollisionState_eq_dec : EqDecision CollisionState.
Proof. solve_decision. Defined.

Record CollisionEvent := mkEvent {
  state : CollisionState;
  pair : string * string
}.

Inductive SfxPreset := Minimize1.
Inductive MusicPreset := WhimsicalPopsicle.

(** What the game asks of the audio manager, in issue order. *)
Inductive AudioCmd :=
  | PlaySfx (s : SfxPreset) (volume : f32)
  | PlayMusic (m : MusicPreset) (volume : f32).

Record Engine := mkEngine {
  sprites : Sprites;
  texts : Texts;
  keyboard_state : KeyboardState;
  mouse_state : MouseState;
  collision_events : list CollisionEvent;
  delta : N;              (** [engine.delta], nanoseconds *)
  delta_f32 : f32;        (** [engine.delta_f32], seconds *)
  audio : list AudioCmd;
  should_exit : bool;
  show_colliders : bool
}.

Record GameState := mkGameState {
  high_score : N;
  current_score : N;
  ferris_index : N;
  spawn_timer : Timer.Timer
}.

(** [GameState::default()], lines 11-20. *)
Definition GameState_default : GameState :=
  mkGameState 0 0 0 Timer.spawn_timer_init.

(** [Game::new()]: an engine with nothing in it, before the first frame. *)
Definition Game_new : Engine :=
  mkEngine ∅ ∅ (mkKeyboard [] []) (mkMouse [] None) [] 0 f32_zero [] false false.

(** The two texts of lines 29 and 32. *)
Definition main_texts (t : Texts) : Texts :=
  add_text "high_score" "High Score: 0" (add_text "score" "Score: 0" t).

(** [main], lines 23-37: the player at the origin facing south-west with a
    collider, the two score texts, the music at volume 0.1. *)
Definition main_setup : result Engine :=
  let g := Game_new in
  sprites1 <- add_sprite PLAYER RacingCarBlue (sprites g) ;;
  sprites2 <- update_sprite PLAYER
     (fun p => set_collision (set_rotation (set_translation p Vec2_ZERO) SOUTH_WEST) true)
     sprites1 ;;
  Ok (mkEngine sprites2 (main_texts (texts g)) (keyboard_state g) (mouse_state g)
        (collision_events g) (delta g) (delta_f32 g)
        (audio g ++ [PlayMusic WhimsicalPopsicle (f32_lit 1 10)])
        (should_exit g) (show_colliders g)).

(** ** Field updates *)

(** The game state's field updates. *)
Definition with_scores (g : GameState) (high cur : N) : GameState :=
  mkGameState high cur (ferris_index g) (spawn_timer g).
Definition with_index (g : GameState) (i : N) : GameState :=
  mkGameState (high_score g) (current_score g) i (spawn_timer g).
Definition with_timer (g : GameState) (t : Timer.Timer) : GameState :=
  mkGameState (high_score g) (current_score g) (ferris_index g) t.

(** C22: [main] builds the scene: the player at the origin, facing
    south-west, with a collider, and the two texts with their initial
    values. *)
Lemma main_setup_ok :
  exists e, main_setup = Ok e
  /\ sprites e !! PLAYER = Some (mkSprite PLAYER RacingCarBlue Vec2_ZERO SOUTH_WEST true)
  /\ (value <$> texts e !! "score") = Some "Score: 0"
  /\ (value <$> texts e !! "high_score") = Some "High Score: 0".
Proof. eexists. split; [reflexivity|]. vm_compute. auto. Qed.
