(* ===== verification/Score.v ===== *)
(** * The score tracker

    The two operations of the spec's score tracker (section 4.4) are inline
    in [game_logic]: [register_point] is lines 68-78 (increment the current
    score, rewrite the ["score"] text, and when the current score exceeds
    the high score raise it and rewrite the ["high_score"] text), and
    [reset_current] is lines 138-140 (zero the current score, rewrite the
    ["score"] text).  Both take the game state and the text registry.

    The class [ScoreTracker] is what the collision resolver needs of a
    score tracker, and [ScoreTrackerSpec] its laws, stated against the
    abstract pair (current, high) of the spec; the instance on
    [GameState * Texts] discharges them.  The invariant [score_inv] says
    that the current score never exceeds the high score, that both are
    [u32]s, and that each text shows its score (or still the initial
    ["Score: 0"] / ["High Score: 0"] of [main], which differ in format from
    the texts the frame writes). *)

From S2P Require Import Prelude Decimal Timer Registry Engine.
Open Scope game_scope.
Open Scope N_scope.

(** Lines 68-78. *)
Definition register_point (g : GameState) (t : Texts) : result (GameState * Texts) :=
  cur <- u32_incr "current_score" (current_score g) ;;
  t1 <- set_text "score" (score_text cur) t ;;
  if high_score g <? cur then
    t2 <- set_text "high_score" (high_score_text cur) t1 ;;
    Ok (with_scores g cur cur, t2)
  else Ok (with_scores g (high_score g) cur, t1).

(** Lines 138-140. *)
Definition reset_current (g : GameState) (t : Texts) : result (GameState * Texts) :=
  t1 <- set_text "score" "Score 0" t ;;
  Ok (with_scores g (high_score g) 0, t1).

(** A text of the registry shows a value. *)
Definition shows (t : Texts) (l v : string) : Prop := value <$> t !! l = Some v.

Definition score_inv (g : GameState) (t : Texts) : Prop :=
  current_score g <= high_score g /\ high_score g <= U32_MAX
  /\ (shows t "score" (score_text (current_score g))
      \/ (shows t "score" "Score: 0" /\ current_score g = 0))
  /\ (shows t "high_score" (high_score_text (high_score g))
      \/ (shows t "high_score" "High Score: 0" /\ high_score g = 0)).

(** ** The interface between the score tracker and its clients *)

Class ScoreTracker (St : Type) := {
  st_current : St -> N;
  st_high : St -> N;
  st_wf : St -> Prop;
  st_register : St -> result St;
  st_reset : St -> result St
}.

Class ScoreTrackerSpec (St : Type) `{ScoreTracker St} : Prop := {
  st_register_ok s :
    st_wf s -> st_current s < U32_MAX ->
    exists s', st_register s = Ok s' /\ st_wf s'
      /\ st_current s' = st_current s + 1
      /\ st_high s' = N.max (st_high s) (st_current s + 1);
  st_register_overflow s :
    st_wf s -> U32_MAX <= st_current s -> exists p, st_register s = Err p;
  st_register_err s p :
    st_wf s -> st_register s = Err p -> p = Overflow "current_score";
  st_reset_ok s :
    st_wf s -> exists s', st_reset s = Ok s' /\ st_wf s'
      /\ st_current s' = 0 /\ st_high s' = st_high s;
  st_wf_le s : st_wf s -> st_current s <= st_high s
}.

(** ** Lemmas on the texts *)

Lemma shows_set_text l v t t' :
  set_text l v t = Ok t' -> shows t' l v.
Proof. rewrite set_text_Ok. intros (x & _ & ->). unfold shows. by rewrite lookup_insert_eq. Qed.

Lemma shows_set_text_other l l' v v' t t' :
  l <> l' -> set_text l v t = Ok t' -> shows t l' v' -> shows t' l' v'.
Proof. intros Hne Hs. unfold shows. by rewrite (set_text_other _ _ _ _ _ Hne Hs). Qed.

Lemma shows_is_Some t l v : shows t l v -> is_Some (t !! l).
Proof. unfold shows. destruct (t !! l); [eauto|discriminate]. Qed.

#[export] Hint Resolve shows_set_text shows_is_Some : game.

Lemma score_inv_texts g t :
  score_inv g t -> is_Some (t !! "score") /\ is_Some (t !! "high_score").
Proof. intros (_ & _ & [?|[? _]] & [?|[? _]]); eauto with game. Qed.

(** Both texts present: writing them succeeds, and keeps what the other shows. *)
Lemma set_text_score_ok g t v :
  score_inv g t -> exists t1, set_text "score" v t = Ok t1
    /\ shows t1 "score" v /\ t1 !! "high_score" = t !! "high_score" /\ dom t1 = dom t.
Proof.
  intros Hinv. destruct (score_inv_texts _ _ Hinv) as [Hs _].
  destruct (set_text_present "score" v t Hs) as [t1 Ht1].
  exists t1. split_and!; [done|eauto with game| |eauto with game].
  eapply set_text_other; [|exact Ht1]; discriminate.
Qed.

Lemma shows_same_lookup t t' l v : t' !! l = t !! l -> shows t l v -> shows t' l v.
Proof. unfold shows. by intros ->. Qed.

(** ** The functional behaviour of [register_point] and [reset_current] *)

(** C5: [register_point] implements the spec's [register_point()] on the
    pair (current, high): one more point, the high score raised to it when
    exceeded, the rest of the game state untouched, the invariant kept; and it
    panics, only with the [u32] overflow of [current_score += 1], exactly when
    the current score is at [u32::MAX]. *)
Theorem register_point_refines g t :
  score_inv g t ->
  match register_point g t with
  | Ok (g', t') =>
      current_score g' = current_score g + 1
      /\ high_score g' = N.max (high_score g) (current_score g + 1)
      /\ ferris_index g' = ferris_index g /\ spawn_timer g' = spawn_timer g
      /\ dom t' = dom t /\ score_inv g' t'
  | Err p => current_score g = U32_MAX /\ p = Overflow "current_score"
  end.
Proof.
  intros Hinv. pose proof Hinv as (Hle & Hmax & Hsc & Hhs).
  unfold register_point, u32_incr.
  destruct (N.ltb_spec (current_score g) U32_MAX) as [Hlt|Hge]; simpl; [|split; [lia|done]].
  destruct (set_text_score_ok g t (score_text (N.succ (current_score g))) Hinv)
    as (t1 & -> & Hs1 & Hh1 & Hd1); simpl.
  destruct (N.ltb_spec (high_score g) (N.succ (current_score g))) as [Hup|Hkeep].
  - assert (Hp : is_Some (t1 !! "high_score")).
    { rewrite Hh1. apply (score_inv_texts g t Hinv). }
    destruct (set_text_present "high_score" (high_score_text (N.succ (current_score g))) t1 Hp)
      as [t2 Ht2].
    assert (Hd2 : dom t2 = dom t1) by eauto with game.
    rewrite Ht2. simpl. split_and!; simpl; try lia; try congruence.
    + unfold score_inv; simpl. split_and!; try lia.
      * left. eapply shows_set_text_other; [|exact Ht2|done]; discriminate.
      * left. by eapply shows_set_text.
  - split_and!; simpl; try lia; try done.
    unfold score_inv; simpl. split_and!; try lia; [by left|].
    destruct Hhs as [?|[? ?]]; [left|right]; eauto using shows_same_lookup.
Qed.

(** C11: [reset_current] zeroes the current score, leaves the high score and
    the rest of the game state as they were, keeps the invariant, and never
    panics on a state that satisfies it. *)
Theorem reset_current_spec g t :
  score_inv g t ->
  exists t', reset_current g t = Ok (with_scores g (high_score g) 0, t')
    /\ dom t' = dom t /\ score_inv (with_scores g (high_score g) 0) t'.
Proof.
  intros Hinv. destruct (set_text_score_ok g t "Score 0" Hinv) as (t1 & Ht1 & Hs1 & Hh1 & Hd1).
  exists t1. unfold reset_current. rewrite Ht1. split_and!; [done|done|].
  destruct Hinv as (_ & Hmax & _ & Hhs).
  unfold score_inv; simpl. split_and!; [lia|done|by left|].
  destruct Hhs as [?|[? ?]]; [left|right]; eauto using shows_same_lookup.
Qed.

(** ** The score tracker of the game *)

#[export] Instance game_score_tracker : ScoreTracker (GameState * Texts) := {
  st_current s := current_score s.1;
  st_high s := high_score s.1;
  st_wf s := score_inv s.1 s.2;
  st_register s := register_point s.1 s.2;
  st_reset s := reset_current s.1 s.2
}.

#[export] Instance game_score_tracker_spec : ScoreTrackerSpec (GameState * Texts).
Proof.
  split; intros [g t] Hinv; simpl.
  - intros Hlt. pose proof (register_point_refines g t Hinv) as Hr.
    destruct (register_point g t) as [[g' t']|p]; [|lia].
    exists (g', t'). naive_solver.
  - intros Hge. pose proof (register_point_refines g t Hinv) as Hr.
    destruct (register_point g t) as [[g' t']|p]; [|by exists p].
    destruct Hr as (Hc & _ & _ & _ & _ & Hc' & Hh' & _). lia.
  - rename Hinv into p. intros Hinv Hp. pose proof (register_point_refines g t Hinv) as Hr.
    rewrite Hp in Hr. apply Hr.
  - destruct (reset_current_spec g t Hinv) as (t' & -> & _ & ?).
    eexists. split_and!; [done|done|done|done].
  - apply Hinv.
Qed.

Lemma main_texts_inv : score_inv GameState_default (main_texts ∅).
Proof. unfold score_inv; simpl. split_and!; [lia|vm_compute; discriminate|right; split; reflexivity..]. Qed.

Lemma register_point_refines_witness :
  match register_point GameState_default (main_texts ∅) with
  | Ok (g', t') =>
      current_score g' = current_score GameState_default + 1
      /\ high_score g' = N.max (high_score GameState_default) (current_score GameState_default + 1)
      /\ ferris_index g' = ferris_index GameState_default
      /\ spawn_timer g' = spawn_timer GameState_default
      /\ dom t' = dom (main_texts ∅) /\ score_inv g' t'
  | Err p => current_score GameState_default = U32_MAX /\ p = Overflow "current_score"
  end.
Proof. apply register_point_refines. apply main_texts_inv. Defined.

Lemma reset_current_spec_witness :
  exists t', reset_current GameState_default (main_texts ∅)
             = Ok (with_scores GameState_default (high_score GameState_default) 0, t')
    /\ dom t' = dom (main_texts ∅)
    /\ score_inv (with_scores GameState_default (high_score GameState_default) 0) t'.
Proof. apply reset_current_spec. apply main_texts_inv. Defined.
