(* ===== verification/Collision.v ===== *)
(** * The collision resolver

    Lines 58-82 drain [engine.collision_events] in arrival order.  An event
    scores when its state is [Begin] and one side of its pair starts with
    ["player"] ([CollisionPair::one_starts_with], a [starts_with] on either
    label); it then removes every side that is not exactly ["player"] from
    the sprites (lines 62-66), registers a point with the score tracker
    (lines 68-78, see [Score]) and queues the [Minimize1] sound at volume
    0.3 (line 80).  Any other event is ignored.

    The resolver is written against the [ScoreTracker] interface of
    [Score]: the section's theorems use only the laws [ScoreTrackerSpec],
    and [Game] instantiates it with the game's tracker.  The theorems: the
    score grows by the number of scoring events and the high score follows
    it, the player is never removed, every other side of a scoring event
    is, a panic happens exactly when the score would pass [u32::MAX]; the
    code's guard agrees with the spec's ("exactly one side equals the
    player label") on the labels the game mints, and not on others; a
    [Begin] event delivered twice scores twice. *)

From S2P Require Import Prelude F32 Decimal Registry Engine Score.
Open Scope game_scope.
Open Scope N_scope.

(** [CollisionPair::one_starts_with(text)]. *)
Definition one_starts_with (p : string * string) (text : string) : bool :=
  starts_with p.1 text || starts_with p.2 text.

(** The guard of line 61. *)
Definition scores (ev : CollisionEvent) : bool :=
  bool_decide (state ev = Begin) && one_starts_with (pair ev) PLAYER.

(** Lines 62-66: [for label in [pair.0, pair.1] { if label != "player"
    { engine.sprites.remove(&label); } }]. *)
Definition remove_non_player (p : string * string) (m : Sprites) : Sprites :=
  foldl (fun m l => if bool_decide (l <> PLAYER) then remove_sprite l m else m)
    m [p.1; p.2].

(** The sound effect of line 80: [play_sfx(SfxPreset::Minimize1, 0.3)]. *)
Definition score_sfx : AudioCmd := PlaySfx Minimize1 (f32_lit 3 10).

Section Resolver.
Context {St : Type} `{ScoreTracker St}.

(** What the loop mutates: the sprites, the score tracker, the audio. *)
Record World := mkWorld {
  w_sprites : Sprites;
  w_score : St;
  w_audio : list AudioCmd
}.

(** The body of the loop, lines 59-81 ([println!] is not modelled). *)
Definition handle_event (w : World) (ev : CollisionEvent) : result World :=
  if scores ev then
    let sp := remove_non_player (pair ev) (w_sprites w) in
    s' <- st_register (w_score w) ;;
    Ok (mkWorld sp s' (w_audio w ++ [score_sfx]))
  else Ok w.

(** [for event in engine.collision_events.drain(..)], line 58. *)
Fixpoint drain (evs : list CollisionEvent) (w : World) : result World :=
  match evs with
  | [] => Ok w
  | ev :: evs' => w' <- handle_event w ev ;; drain evs' w'
  end.
End Resolver.

Arguments World St : clear implicits.

(** The labels a batch of events removes. *)
Definition removed_labels (evs : list CollisionEvent) : list string :=
  filter (fun l => l <> PLAYER) (concat (map (fun ev => [(pair ev).1; (pair ev).2]) (filter scores evs))).

(** The number of scoring events of a batch. *)
Definition score_count (evs : list CollisionEvent) : N := N.of_nat (length (filter scores evs)).

(** ** The spec's resolver (section 4.3) *)

(** The spec's guard: [Begin], and exactly one side equal to the player's label. *)
Definition spec_scores (ev : CollisionEvent) : bool :=
  bool_decide (state ev = Begin)
  && xorb (bool_decide ((pair ev).1 = PLAYER)) (bool_decide ((pair ev).2 = PLAYER)).

(** The labels the game gives its sprites: the player's, or one that does
    not start with it. *)
Definition label_ok (l : string) : Prop := l = PLAYER \/ starts_with l PLAYER = false.

(** ** Lemmas *)

Lemma remove_non_player_lookup p m l :
  remove_non_player p m !! l =
    if bool_decide (l <> PLAYER /\ (l = p.1 \/ l = p.2)) then None else m !! l.
Proof.
  destruct p as [a b]. unfold remove_non_player, remove_sprite. simpl.
  repeat case_bool_decide; rewrite ?lookup_delete; repeat case_decide; naive_solver.
Qed.

Lemma removed_labels_cons ev evs l :
  l ∈ removed_labels (ev :: evs) <->
  (scores ev = true /\ l <> PLAYER /\ (l = (pair ev).1 \/ l = (pair ev).2))
  \/ l ∈ removed_labels evs.
Proof.
  unfold removed_labels. rewrite filter_cons.
  destruct (scores ev); simpl; rewrite ?list_elem_of_filter, ?elem_of_app, ?list_elem_of_filter;
    set_solver.
Qed.

Lemma removed_labels_nil : removed_labels [] = [].
Proof. reflexivity. Qed.

Lemma score_count_cons ev evs :
  score_count (ev :: evs) = (if scores ev then 1 else 0) + score_count evs.
Proof. unfold score_count. rewrite filter_cons. destruct (scores ev); simpl; lia. Qed.

(** The sprites after one more event of a batch. *)
Lemma removed_step ev evs (m : Sprites) l :
  (if bool_decide (l ∈ removed_labels evs) then None
   else (if scores ev then remove_non_player (pair ev) m else m) !! l)
  = if bool_decide (l ∈ removed_labels (ev :: evs)) then None else m !! l.
Proof.
  destruct (decide (l ∈ removed_labels (ev :: evs))) as [Hin|Hnin].
  - rewrite (bool_decide_true _ Hin).
    apply removed_labels_cons in Hin as [(Hs & Hne & Hl)|Hin].
    + case_bool_decide; [done|]. rewrite Hs, remove_non_player_lookup.
      rewrite bool_decide_true; naive_solver.
    + by rewrite bool_decide_true.
  - rewrite (bool_decide_false _ Hnin). rewrite removed_labels_cons in Hnin.
    rewrite bool_decide_false by naive_solver.
    destruct (scores ev) eqn:Hs; [|done].
    rewrite remove_non_player_lookup, bool_decide_false; naive_solver.
Qed.

Section ResolverSpec.
Context {St : Type} `{STS : ScoreTrackerSpec St}.

(** One event of the loop. *)
Lemma handle_event_spec (w : World St) ev :
  st_wf (w_score w) ->
  match handle_event w ev with
  | Ok w' =>
      st_wf (w_score w')
      /\ st_current (w_score w') = st_current (w_score w) + (if scores ev then 1 else 0)
      /\ st_high (w_score w') = N.max (st_high (w_score w)) (st_current (w_score w'))
      /\ w_sprites w' = (if scores ev then remove_non_player (pair ev) (w_sprites w)
                         else w_sprites w)
      /\ w_audio w' = w_audio w ++ (if scores ev then [score_sfx] else [])
  | Err p => scores ev = true /\ U32_MAX <= st_current (w_score w)
             /\ p = Overflow "current_score"
  end.
Proof.
  intros Hwf. unfold handle_event. destruct (scores ev) eqn:Hs.
  - destruct (N.lt_ge_cases (st_current (w_score w)) U32_MAX) as [Hlt|Hge].
    + destruct (st_register_ok _ Hwf Hlt) as (s' & -> & ? & ? & ?). simpl.
      split_and!; auto; lia.
    + destruct (st_register_overflow _ Hwf Hge) as [p Hp]. rewrite Hp. simpl.
      split_and!; [done|done|]. by apply (st_register_err _ _ Hwf Hp).
  - pose proof (st_wf_le _ Hwf). rewrite app_nil_r. split_and!; auto; lia.
Qed.

(** C4: draining a batch of collision events adds one point per scoring
    event and raises the high score to the final current score when it
    passes it; the sprites lose exactly the non-player sides of the
    scoring events; one sound is queued per scoring event; the tracker's
    invariant holds after; the only failure is the [u32] overflow, when
    the score would pass [u32::MAX]. *)
Theorem drain_spec evs (w : World St) :
  st_wf (w_score w) ->
  match drain evs w with
  | Ok w' =>
      st_wf (w_score w')
      /\ st_current (w_score w') = st_current (w_score w) + score_count evs
      /\ st_high (w_score w') = N.max (st_high (w_score w)) (st_current (w_score w'))
      /\ (forall l, w_sprites w' !! l =
            if bool_decide (l ∈ removed_labels evs) then None else w_sprites w !! l)
      /\ w_audio w' = w_audio w ++ replicate (length (filter scores evs)) score_sfx
  | Err p => p = Overflow "current_score"
             /\ U32_MAX < st_current (w_score w) + score_count evs
  end.
Proof.
  revert w. induction evs as [|ev evs IH]; intros w Hwf; simpl.
  - pose proof (st_wf_le _ Hwf). rewrite app_nil_r. unfold score_count; simpl.
    split_and!; auto; lia.
  - pose proof (handle_event_spec w ev Hwf) as Hh. rewrite score_count_cons.
    destruct (handle_event w ev) as [w1|p]; simpl; [|destruct Hh as (Hsc & Hge & Hp); rewrite Hsc; split; [done|lia]].
    destruct Hh as (Hwf1 & Hc1 & Hh1 & Hs1 & Ha1).
    specialize (IH w1 Hwf1). destruct (drain evs w1) as [w2|p]; [|split; [apply IH|lia]].
    destruct IH as (Hwf2 & Hc2 & Hh2 & Hs2 & Ha2). split_and!; [done|lia|lia| |].
    + intros l. by rewrite Hs2, Hs1, removed_step.
    + rewrite Ha2, Ha1, filter_cons. destruct (scores ev); simpl; by rewrite <- app_assoc.
Qed.

(** The player's sprite is never removed by the resolver. *)
Corollary drain_keeps_player evs (w w' : World St) :
  st_wf (w_score w) -> drain evs w = Ok w' ->
  w_sprites w' !! PLAYER = w_sprites w !! PLAYER.
Proof.
  intros Hwf Hd. pose proof (drain_spec evs w Hwf) as Hs. rewrite Hd in Hs.
  destruct Hs as (_ & _ & _ & Hl & _). rewrite Hl, bool_decide_false; [done|].
  unfold removed_labels. rewrite list_elem_of_filter. naive_solver.
Qed.
End ResolverSpec.

(** ** The code's guard against the spec's *)

Lemma label_ok_not_player l : label_ok l -> l <> PLAYER -> starts_with l PLAYER = false.
Proof. by intros [->|?]. Qed.

Lemma click_label_ok i : label_ok (click_label i).
Proof. right. apply click_label_no_player_prefix. Qed.

Lemma timer_label_ok i : label_ok (timer_label i).
Proof. right. apply timer_label_no_player_prefix. Qed.

#[export] Hint Resolve click_label_ok timer_label_ok : game.

(** C9: on labels the game can give a sprite (["player"], or a label that
    does not start with it) and a pair of two different sprites, the code's
    guard [Begin && one_starts_with("player")] is the spec's guard
    ([Begin] and exactly one side equal to ["player"]). *)
Theorem scores_refines_spec ev :
  label_ok (pair ev).1 -> label_ok (pair ev).2 -> (pair ev).1 <> (pair ev).2 ->
  scores ev = spec_scores ev.
Proof.
  destruct ev as [st [a b]]; simpl. intros Ha Hb Hne.
  unfold scores, spec_scores, one_starts_with; simpl. f_equal.
  destruct (decide (a = PLAYER)) as [->|Hna], (decide (b = PLAYER)) as [->|Hnb];
    [done| | |]; repeat case_bool_decide; try done;
    rewrite ?(label_ok_not_player a), ?(label_ok_not_player b) by done; done.
Qed.

Definition ev_begin (a b : string) : CollisionEvent := mkEvent Begin (a, b).

Lemma scores_refines_spec_witness :
  scores (ev_begin PLAYER (click_label 0)) = spec_scores (ev_begin PLAYER (click_label 0)).
Proof.
  apply scores_refines_spec; simpl; [by left|apply click_label_ok|discriminate].
Defined.



(** ** Concrete batches on the game's tracker *)

(** Spec section 8's scene: the player and a car ["c1"] at the origin, the
    texts of [main], the default game state. *)
Definition example_sprites : Sprites :=
  <["c1" := set_collision (Sprite_new "c1" RacingCarYellow) true]>
  (<[PLAYER := mkSprite PLAYER RacingCarBlue Vec2_ZERO SOUTH_WEST true]> ∅).

Definition example_world : World (GameState * Texts) :=
  mkWorld example_sprites (GameState_default, main_texts ∅) [].

Lemma example_world_wf : st_wf (w_score example_world).
Proof. apply main_texts_inv. Qed.


Section Duplicates.
Context {St : Type} `{STS : ScoreTrackerSpec St}.

(** C10: the policy for a [Begin] event delivered twice in one batch
    (spec section 9): the sides are removed once (the second removal is a
    no-op) but the point is counted twice. *)
Theorem duplicate_begin_scores_twice ev (w : World St) :
  st_wf (w_score w) -> scores ev = true ->
  st_current (w_score w) + 2 <= U32_MAX ->
  exists w', drain [ev; ev] w = Ok w'
    /\ st_current (w_score w') = st_current (w_score w) + 2
    /\ w_sprites w' = remove_non_player (pair ev) (w_sprites w).
Proof.
  intros Hwf Hs Hb. pose proof (drain_spec [ev; ev] w Hwf) as Hd.
  assert (Hc : score_count [ev; ev] = 2) by (rewrite !score_count_cons, Hs; done).
  destruct (drain [ev; ev] w) as [w'|p]; [|lia].
  destruct Hd as (_ & Hcur & _ & Hl & _). exists w'. split_and!; [done|lia|].
  apply map_eq. intros l. rewrite Hl, remove_non_player_lookup.
  rewrite (bool_decide_ext _ (l <> PLAYER /\ (l = (pair ev).1 \/ l = (pair ev).2))); [done|].
  rewrite !removed_labels_cons, removed_labels_nil. set_solver.
Qed.
End Duplicates.

Lemma duplicate_begin_scores_twice_witness :
  exists w', drain [ev_begin PLAYER "c1"; ev_begin PLAYER "c1"] example_world = Ok w'
    /\ st_current (w_score w') = st_current (w_score example_world) + 2
    /\ w_sprites w' = remove_non_player (pair (ev_begin PLAYER "c1")) (w_sprites example_world).
Proof.
  apply duplicate_begin_scores_twice; [|reflexivity|vm_compute; discriminate].
  apply example_world_wf.
Defined.

(** Any property of the tracker that registering a point keeps, the
    resolver keeps. *)
Lemma drain_preserves {St} `{ScoreTracker St} (P : St -> Prop) evs (w w' : World St) :
  (forall s s', P s -> st_register s = Ok s' -> P s') ->
  P (w_score w) -> drain evs w = Ok w' -> P (w_score w').
Proof.
  intros HP. revert w. induction evs as [|ev evs IH]; intros w Hw Hd; simpl in Hd.
  - by injection Hd as <-.
  - apply rbind_Ok in Hd as (w1 & Hh & Hd). apply (IH w1); [|done].
    unfold handle_event in Hh. destruct (scores ev); [|by injection Hh as <-].
    apply rbind_Ok in Hh as (s' & Hs' & [= <-]). simpl. eauto.
Qed.


Lemma drain_spec_witness :
  match drain [ev_begin PLAYER "c1"; mkEvent End (PLAYER, "c1")] example_world with
  | Ok w' =>
      st_wf (w_score w')
      /\ st_current (w_score w') = st_current (w_score example_world)
                                   + score_count [ev_begin PLAYER "c1"; mkEvent End (PLAYER, "c1")]
      /\ st_high (w_score w') = N.max (st_high (w_score example_world)) (st_current (w_score w'))
      /\ (forall l, w_sprites w' !! l =
            if bool_decide (l ∈ removed_labels [ev_begin PLAYER "c1"; mkEvent End (PLAYER, "c1")])
            then None else w_sprites example_world !! l)
      /\ w_audio w' = w_audio example_world
                      ++ replicate (length (filter scores [ev_begin PLAYER "c1"; mkEvent End (PLAYER, "c1")]))
                           score_sfx
  | Err p => p = Overflow "current_score"
             /\ U32_MAX < st_current (w_score example_world)
                          + score_count [ev_begin PLAYER "c1"; mkEvent End (PLAYER, "c1")]
  end.
Proof. apply drain_spec. apply example_world_wf. Defined.
