(* ===== verification/Spawn.v ===== *)
(** * Spawning

    Two places of [game_logic] add a car.  On a fresh left click with the
    cursor over the window (lines 116-125) the car is labelled
    [format!("ferris{}", ferris_index)], placed at the cursor, turned
    south-east and given a collider.  When the spawn timer, ticked by the
    frame's duration, just finished (lines 127-134) the car is labelled
    [format!("Ferris{}", ferris_index)] and placed at two draws of
    [thread_rng().gen_range] (inputs of the frame here), with a collider.
    Both increment [ferris_index] (a [u32], [+= 1]) before adding.

    The registry invariant [labels_minted] says that every sprite is stored
    under its own label and that every label but the player's was minted
    from an index below [ferris_index].  Since the printer of [Decimal] is
    injective and the two prefixes differ, the next label is fresh: the
    [DuplicateLabel] error of the spec never happens, each spawn adds
    exactly one sprite, and the invariant is kept. *)

From S2P Require Import Prelude F32 Decimal Timer Registry Input Engine.
Open Scope game_scope.
Open Scope N_scope.

(** The writes of lines 121-123 through the reference [add_sprite] returns. *)
Definition place_click (loc : Vec2) (s : Sprite) : Sprite :=
  set_collision (set_rotation (set_translation s loc) SOUTH_EAST) true.

(** The writes of lines 131-133. *)
Definition place_random (rx ry : f32) (s : Sprite) : Sprite :=
  set_collision (set_translation s (set_vy (set_vx (translation s) rx) ry)) true.

(** Lines 116-125. *)
Definition click_spawn (ms : MouseState) (g : GameState) (sp : Sprites)
    : result (GameState * Sprites) :=
  if mouse_just_pressed ms MouseLeft then
    match location ms with
    | Some loc =>
        let l := click_label (ferris_index g) in
        idx <- u32_incr "ferris_index" (ferris_index g) ;;
        sp1 <- add_sprite l RacingCarYellow sp ;;
        Ok (with_index g idx, alter (place_click loc) l sp1)
    | None => Ok (g, sp)
    end
  else Ok (g, sp).

(** Lines 127-134; [rnd] are the two draws of [gen_range]. *)
Definition timer_spawn (dt : N) (rnd : f32 * f32) (g : GameState) (sp : Sprites)
    : result (GameState * Sprites) :=
  let g := with_timer g (Timer.tick dt (spawn_timer g)) in
  if Timer.just_finished (spawn_timer g) then
    let l := timer_label (ferris_index g) in
    idx <- u32_incr "ferris_index" (ferris_index g) ;;
    sp1 <- add_sprite l RacingCarYellow sp ;;
    Ok (with_index g idx, alter (place_random rnd.1 rnd.2) l sp1)
  else Ok (g, sp).

(** A label minted from an index. *)
Definition minted (idx : N) (l : string) : Prop :=
  exists i, i < idx /\ (l = click_label i \/ l = timer_label i).

(** The registry invariant. *)
Definition labels_minted (sp : Sprites) (idx : N) : Prop :=
  forall l s, sp !! l = Some s -> label s = l /\ (l = PLAYER \/ minted idx l).

(** ** Freshness of the minted labels *)

Lemma minted_mono idx idx' l : idx <= idx' -> minted idx l -> minted idx' l.
Proof. intros ? (i & ? & ?). exists i. split; [lia|done]. Qed.

Lemma click_label_fresh sp idx :
  labels_minted sp idx -> sp !! click_label idx = None.
Proof.
  intros Hm. destruct (sp !! click_label idx) as [s|] eqn:Hs; [|done].
  destruct (Hm _ _ Hs) as [_ [Hp|(i & Hi & [Hl|Hl])]].
  - by apply click_label_not_player in Hp.
  - apply click_label_inj in Hl. lia.
  - by apply click_timer_label_ne in Hl.
Qed.

Lemma timer_label_fresh sp idx :
  labels_minted sp idx -> sp !! timer_label idx = None.
Proof.
  intros Hm. destruct (sp !! timer_label idx) as [s|] eqn:Hs; [|done].
  destruct (Hm _ _ Hs) as [_ [Hp|(i & Hi & [Hl|Hl])]].
  - by apply timer_label_not_player in Hp.
  - symmetry in Hl. by apply click_timer_label_ne in Hl.
  - apply timer_label_inj in Hl. lia.
Qed.

(** Adding the sprite of a freshly minted label keeps the invariant. *)
Lemma labels_minted_add sp idx l f :
  labels_minted sp idx -> minted (idx + 1) l ->
  (forall s, label (f s) = label s) ->
  labels_minted (alter f l (<[l := Sprite_new l RacingCarYellow]> sp)) (idx + 1).
Proof.
  intros Hm Hl Hf l' s'. rewrite lookup_alter.
  destruct (decide (l = l')) as [<-|Hne].
  - rewrite lookup_insert_eq. intros [= <-]. split; [by rewrite Hf|by right].
  - rewrite lookup_insert_ne by done. intros Hs.
    destruct (sp !! l') as [s|] eqn:Hs'; simplify_eq/=.
    destruct (Hm _ _ Hs') as [? [?|?]]; split; [done|by left|done|right].
    eapply minted_mono; [|done]. lia.
Qed.

Lemma labels_minted_mono sp idx idx' :
  idx <= idx' -> labels_minted sp idx -> labels_minted sp idx'.
Proof.
  intros Hle Hm l s Hs. destruct (Hm l s Hs) as [? [?|?]]; split; [done|by left|done|].
  right. by eapply minted_mono.
Qed.

#[export] Hint Resolve labels_minted_mono click_label_fresh timer_label_fresh : game.

(** Adding under a fresh label and writing the new sprite's fields. *)
Lemma add_sprite_bind {B} l p sp (k : Sprites -> result B) :
  sp !! l = None -> rbind (add_sprite l p sp) k = k (<[l := Sprite_new l p]> sp).
Proof. intros Hf. by rewrite (add_sprite_fresh _ _ _ Hf). Qed.

(** ** The two spawns *)

(** C7: the click spawn (lines 116-125).  On a fresh left click with the
    cursor at [loc], exactly one sprite is added, under the label
    ["ferris<i>"] that no sprite had, at [loc], facing south-east, with a
    collider, and [ferris_index] grows by exactly one; otherwise nothing
    changes.  The registry invariant is kept, the scores and the timer are
    untouched, and the only panic is the overflow of [ferris_index]. *)
Theorem click_spawn_spec ms g sp :
  labels_minted sp (ferris_index g) ->
  match click_spawn ms g sp with
  | Ok (g', sp') =>
      labels_minted sp' (ferris_index g')
      /\ high_score g' = high_score g /\ current_score g' = current_score g
      /\ spawn_timer g' = spawn_timer g
      /\ match (if mouse_just_pressed ms MouseLeft then location ms else None) with
         | Some loc =>
             ferris_index g < U32_MAX /\ ferris_index g' = ferris_index g + 1
             /\ sp !! click_label (ferris_index g) = None
             /\ sp' = <[click_label (ferris_index g) :=
                        place_click loc (Sprite_new (click_label (ferris_index g)) RacingCarYellow)]> sp
         | None => g' = g /\ sp' = sp
         end
  | Err p => p = Overflow "ferris_index" /\ U32_MAX <= ferris_index g
  end.
Proof.
  intros Hm. unfold click_spawn.
  destruct (mouse_just_pressed ms MouseLeft); [|by split_and!].
  destruct (location ms) as [loc|]; [|by split_and!].
  unfold u32_incr. destruct (N.ltb_spec (ferris_index g) U32_MAX) as [Hlt|Hge];
    cbn [rbind]; [|split; [done|lia]].
  pose proof (click_label_fresh _ _ Hm) as Hf. rewrite (add_sprite_bind _ _ _ _ Hf), alter_insert_eq. simpl.
  rewrite N.add_1_r. split_and!; try done.
  rewrite <- N.add_1_r. rewrite <- alter_insert_eq. apply labels_minted_add; [done| |done].
  exists (ferris_index g). split; [lia|by left].
Qed.

(** C8: the timer spawn (lines 127-134).  The spawn timer is ticked by the
    frame's duration; when it just finished, exactly one sprite is added,
    under the label ["Ferris<i>"] that no sprite had, at the two random
    draws, with a collider, and [ferris_index] grows by exactly one;
    otherwise only the timer changes.  The registry invariant is kept and
    the only panic is the overflow of [ferris_index]. *)
Theorem timer_spawn_spec dt rnd g sp :
  labels_minted sp (ferris_index g) ->
  match timer_spawn dt rnd g sp with
  | Ok (g', sp') =>
      labels_minted sp' (ferris_index g')
      /\ high_score g' = high_score g /\ current_score g' = current_score g
      /\ spawn_timer g' = Timer.tick dt (spawn_timer g)
      /\ if Timer.just_finished (Timer.tick dt (spawn_timer g)) then
           ferris_index g < U32_MAX /\ ferris_index g' = ferris_index g + 1
           /\ sp !! timer_label (ferris_index g) = None
           /\ sp' = <[timer_label (ferris_index g) :=
                      place_random rnd.1 rnd.2
                        (Sprite_new (timer_label (ferris_index g)) RacingCarYellow)]> sp
         else ferris_index g' = ferris_index g /\ sp' = sp
  | Err p => p = Overflow "ferris_index" /\ U32_MAX <= ferris_index g
  end.
Proof.
  intros Hm. unfold timer_spawn. simpl.
  destruct (Timer.just_finished (Timer.tick dt (spawn_timer g))); [|by split_and!].
  unfold u32_incr. destruct (N.ltb_spec (ferris_index g) U32_MAX) as [Hlt|Hge];
    cbn [rbind]; [|split; [done|lia]].
  pose proof (timer_label_fresh _ _ Hm) as Hf. rewrite (add_sprite_bind _ _ _ _ Hf), alter_insert_eq. simpl.
  rewrite N.add_1_r. split_and!; try done.
  rewrite <- N.add_1_r. rewrite <- alter_insert_eq. apply labels_minted_add; [done| |done].
  exists (ferris_index g). split; [lia|by right].
Qed.

(** [ferris_index] stays a [u32]. *)
Lemma click_spawn_u32 ms g sp g' sp' :
  is_u32 (ferris_index g) -> click_spawn ms g sp = Ok (g', sp') -> is_u32 (ferris_index g').
Proof.
  unfold click_spawn. intros Hi H. repeat case_match; result_inv; simpl; unfold is_u32 in *; lia.
Qed.

Lemma timer_spawn_u32 dt rnd g sp g' sp' :
  is_u32 (ferris_index g) -> timer_spawn dt rnd g sp = Ok (g', sp') -> is_u32 (ferris_index g').
Proof.
  unfold timer_spawn. intros Hi H. repeat case_match; result_inv; simpl in *; unfold is_u32 in *; lia.
Qed.

Lemma click_spawn_index ms g sp g' sp' :
  click_spawn ms g sp = Ok (g', sp') -> ferris_index g' <= ferris_index g + 1.
Proof. unfold click_spawn. intros H. repeat case_match; result_inv; simpl in *; lia. Qed.

(** What a spawn does to the rest of the frame's state: the scores are
    untouched, the counter grows by at most one, and every sprite but the
    one under the newly minted label is as it was. *)
Lemma click_spawn_frame ms g sp g' sp' :
  click_spawn ms g sp = Ok (g', sp') ->
  high_score g' = high_score g /\ current_score g' = current_score g
  /\ (ferris_index g' = ferris_index g \/ ferris_index g' = ferris_index g + 1)
  /\ forall l, l <> click_label (ferris_index g) -> sp' !! l = sp !! l.
Proof.
  unfold click_spawn. intros H. repeat case_match; result_inv; simpl;
    split_and!; auto; try lia; intros l Hl; [|done..].
  match goal with Ha : add_sprite _ _ _ = Ok _ |- _ => apply add_sprite_Ok in Ha as [_ ->] end.
  by rewrite lookup_alter_ne, lookup_insert_ne.
Qed.

Lemma timer_spawn_frame dt rnd g sp g' sp' :
  timer_spawn dt rnd g sp = Ok (g', sp') ->
  high_score g' = high_score g /\ current_score g' = current_score g
  /\ (ferris_index g' = ferris_index g \/ ferris_index g' = ferris_index g + 1)
  /\ forall l, l <> timer_label (ferris_index g) -> sp' !! l = sp !! l.
Proof.
  unfold timer_spawn. intros H. repeat case_match; result_inv; simpl;
    split_and!; auto; try lia; intros l Hl; [|done..].
  match goal with Ha : add_sprite _ _ _ = Ok _ |- _ => apply add_sprite_Ok in Ha as [_ ->] end.
  by rewrite lookup_alter_ne, lookup_insert_ne.
Qed.

(** Spec section 8's example: a click at (200, 150) on the scene of [main]. *)
Definition click_at_200_150 : MouseState :=
  mkMouse [MouseLeft] (Some (mkVec2 (f32_of_Z 200) (f32_of_Z 150))).

Definition main_sprites : Sprites :=
  {[PLAYER := mkSprite PLAYER RacingCarBlue Vec2_ZERO SOUTH_WEST true]}.

Lemma main_sprites_minted : labels_minted main_sprites 0.
Proof. intros l s. unfold main_sprites. rewrite lookup_singleton_Some. intros [<- <-]. split; [done|by left]. Qed.

Lemma click_spawn_spec_witness :
  match click_spawn click_at_200_150 GameState_default main_sprites with
  | Ok (g', sp') =>
      labels_minted sp' (ferris_index g')
      /\ high_score g' = high_score GameState_default
      /\ current_score g' = current_score GameState_default
      /\ spawn_timer g' = spawn_timer GameState_default
      /\ match (if mouse_just_pressed click_at_200_150 MouseLeft then location click_at_200_150
               else None) with
         | Some loc =>
             ferris_index GameState_default < U32_MAX
             /\ ferris_index g' = ferris_index GameState_default + 1
             /\ main_sprites !! click_label (ferris_index GameState_default) = None
             /\ sp' = <[click_label (ferris_index GameState_default) :=
                        place_click loc (Sprite_new (click_label (ferris_index GameState_default))
                                           RacingCarYellow)]> main_sprites
         | None => g' = GameState_default /\ sp' = main_sprites
         end
  | Err p => p = Overflow "ferris_index" /\ U32_MAX <= ferris_index GameState_default
  end.
Proof. apply click_spawn_spec. apply main_sprites_minted. Defined.

Lemma timer_spawn_spec_witness :
  match timer_spawn 2000000000 (f32_zero, f32_zero) GameState_default main_sprites with
  | Ok (g', sp') =>
      labels_minted sp' (ferris_index g')
      /\ high_score g' = high_score GameState_default
      /\ current_score g' = current_score GameState_default
      /\ spawn_timer g' = Timer.tick 2000000000 (spawn_timer GameState_default)
      /\ if Timer.just_finished (Timer.tick 2000000000 (spawn_timer GameState_default)) then
           ferris_index GameState_default < U32_MAX
           /\ ferris_index g' = ferris_index GameState_default + 1
           /\ main_sprites !! timer_label (ferris_index GameState_default) = None
           /\ sp' = <[timer_label (ferris_index GameState_default) :=
                      place_random f32_zero f32_zero
                        (Sprite_new (timer_label (ferris_index GameState_default)) RacingCarYellow)]>
                    main_sprites
         else ferris_index g' = ferris_index GameState_default /\ sp' = main_sprites
  | Err p => p = Overflow "ferris_index" /\ U32_MAX <= ferris_index GameState_default
  end.
Proof. apply timer_spawn_spec. apply main_sprites_minted. Defined.
