(* ===== verification/Game.v ===== *)
(** * The frame orchestrator

    [game_logic] (lines 42-142) is the whole per-frame step, composed of
    the components in the source's order: the exit key, the two text
    handles (whose placement is not modelled), the collision resolver
    ([Collision.drain] with the game's score tracker of [Score]), the
    player's movement ([Input.move_player]), the click and timer spawns
    ([Spawn]) and the reset key ([Score.reset_current]).  [frame] is one
    frame of the engine loop: the engine refreshes the device states, the
    collision events and the frame time (spec section 6), then runs
    [game_logic].  [step] is the frame as a transition relation, enabled
    while the exit flag is down (spec section 5: the flag is observed at
    the next frame boundary); [reachable] is its closure from the scene of
    [main]; [run] the loop over a finite list of frames.

    The theorems: an invariant of the whole state ([game_inv]: the player
    exists, the registry is keyed by minted labels, the score invariant
    holds, the timer is the two-second repeating one) holds in every
    reachable state; a frame from it never hits a missing entry or a
    duplicate label, and panics only on a [u32] overflow; the reset key,
    the exit key and the loop behave as the spec says. *)

From S2P Require Import Prelude F32 Decimal Timer Registry Input Engine Score Collision Spawn.
Open Scope game_scope.
Open Scope N_scope.

(** What the engine supplies to one frame (spec section 6), with the two
    draws of [gen_range] of lines 131-132. *)
Record FrameInput := mkInput {
  fi_keyboard : KeyboardState;
  fi_mouse : MouseState;
  fi_events : list CollisionEvent;
  fi_delta : N;
  fi_delta_f32 : f32;
  fi_random : f32 * f32
}.

(** The engine's refresh before the logic runs. *)
Definition begin_frame (fi : FrameInput) (e : Engine) : Engine :=
  mkEngine (sprites e) (texts e) (fi_keyboard fi) (fi_mouse fi) (fi_events fi)
    (fi_delta fi) (fi_delta_f32 fi) (audio e) (should_exit e) (show_colliders e).

(** [game_logic], lines 42-142. *)
Definition game_logic (rnd : f32 * f32) (e : Engine) (g : GameState)
    : result (Engine * GameState) :=
  let kb := keyboard_state e in
  (* lines 43-46 *)
  let exit := if key_just_pressed kb KeyQ then true else should_exit e in
  (* lines 50 and 54: [get_mut(..).unwrap()] on the two texts *)
  _ <- unwrap "score" (texts e !! "score") ;;
  _ <- unwrap "high_score" (texts e !! "high_score") ;;
  (* lines 58-82 *)
  w <- drain (collision_events e) (mkWorld (sprites e) (g, texts e) (audio e)) ;;
  let g1 := (w_score w).1 in
  let t1 := (w_score w).2 in
  (* lines 84-114 *)
  sp2 <- update_sprite PLAYER (move_player kb (delta_f32 e)) (w_sprites w) ;;
  (* lines 116-125 *)
  r3 <- click_spawn (mouse_state e) g1 sp2 ;;
  (* lines 127-134 *)
  r4 <- timer_spawn (delta e) rnd r3.1 r3.2 ;;
  (* lines 136-141 *)
  r5 <- (if pressed kb KeyR then reset_current r4.1 t1 else Ok (r4.1, t1)) ;;
  Ok (mkEngine r4.2 r5.2 kb (mouse_state e) [] (delta e) (delta_f32 e)
         (w_audio w) exit true, r5.1).

(** One frame of the engine loop. *)
Definition frame (fi : FrameInput) (e : Engine) (g : GameState)
    : result (Engine * GameState) :=
  game_logic (fi_random fi) (begin_frame fi e) g.

(** [game.run(GameState::default())]: the state after [main]. *)
Definition initial : result (Engine * GameState) :=
  e <- main_setup ;; Ok (e, GameState_default).

Inductive step : Engine * GameState -> Engine * GameState -> Prop :=
  | step_frame fi e g e' g' :
      should_exit e = false ->
      frame fi e g = Ok (e', g') ->
      step (e, g) (e', g').

Inductive reachable : Engine * GameState -> Prop :=
  | reachable_init s : initial = Ok s -> reachable s
  | reachable_step s s' : reachable s -> step s s' -> reachable s'.

(** The loop over the frames the host delivers: it stops when the exit
    flag is up at a frame boundary, on a panic, or when the input ends. *)
Fixpoint run (fis : list FrameInput) (e : Engine) (g : GameState)
    : result (Engine * GameState * nat) :=
  match fis with
  | [] => Ok (e, g, 0%nat)
  | fi :: fis' =>
      if should_exit e then Ok (e, g, 0%nat)
      else
        r <- frame fi e g ;;
        r' <- run fis' r.1 r.2 ;;
        Ok (r'.1.1, r'.1.2, S r'.2)
  end.

(** The invariant of the game. *)
Definition game_inv (e : Engine) (g : GameState) : Prop :=
  is_Some (sprites e !! PLAYER)
  /\ labels_minted (sprites e) (ferris_index g)
  /\ score_inv g (texts e)
  /\ is_u32 (ferris_index g)
  /\ Timer.repeating (spawn_timer g) = true
  /\ Timer.duration (spawn_timer g) = 2000000000.

(** ** The phases of a frame on the invariant *)

Lemma labels_minted_sub (sp sp' : Sprites) idx :
  (forall l, sp' !! l = None \/ sp' !! l = sp !! l) ->
  labels_minted sp idx -> labels_minted sp' idx.
Proof. intros Hsub Hm l s Hs. destruct (Hsub l) as [H|H]; rewrite H in Hs; [done|eauto]. Qed.

(** The collision phase keeps the score invariant, the spawn counter, the
    timer, the registry invariant and the player. *)
Lemma drain_game evs sp g t a w :
  score_inv g t -> labels_minted sp (ferris_index g) -> is_Some (sp !! PLAYER) ->
  drain evs (mkWorld sp (g, t) a) = Ok w ->
  score_inv (w_score w).1 (w_score w).2
  /\ ferris_index (w_score w).1 = ferris_index g
  /\ spawn_timer (w_score w).1 = spawn_timer g
  /\ labels_minted (w_sprites w) (ferris_index g)
  /\ is_Some (w_sprites w !! PLAYER).
Proof.
  intros Hs Hm Hp Hd.
  assert (HP : score_inv (w_score w).1 (w_score w).2
               /\ ferris_index (w_score w).1 = ferris_index g
               /\ spawn_timer (w_score w).1 = spawn_timer g).
  { refine (drain_preserves
      (fun s => score_inv s.1 s.2 /\ ferris_index s.1 = ferris_index g
                /\ spawn_timer s.1 = spawn_timer g) evs _ _ _ _ Hd); [|done].
    intros [g1 t1] s' (Hi & Hf & Ht) Hr. simpl in Hr.
    pose proof (register_point_refines g1 t1 Hi) as Hrp. rewrite Hr in Hrp.
    destruct s' as [g2 t2]. destruct Hrp as (_ & _ & Hf2 & Ht2 & _ & Hi2). simpl.
    simpl in *. split_and!; [exact Hi2|congruence|congruence]. }
  pose proof (drain_spec evs (mkWorld sp (g, t) a) Hs) as Hds. rewrite Hd in Hds.
  destruct Hds as (_ & _ & _ & Hl & _).
  split_and!; try apply HP.
  - eapply labels_minted_sub; [|done]. intros l. rewrite Hl. case_bool_decide; auto.
  - rewrite (drain_keeps_player evs (mkWorld sp (g, t) a) w); done.
Qed.

(** The movement phase finds the player and keeps the registry invariant. *)
Lemma move_game kb dt sp idx :
  labels_minted sp idx -> is_Some (sp !! PLAYER) ->
  exists sp', update_sprite PLAYER (move_player kb dt) sp = Ok sp'
    /\ labels_minted sp' idx /\ is_Some (sp' !! PLAYER).
Proof.
  intros Hm [p Hp]. unfold update_sprite. rewrite Hp. simpl.
  eexists. split_and!; [done| |by rewrite lookup_insert_eq].
  intros l s. rewrite lookup_insert. case_decide as Hl; [subst l|by apply Hm].
  intros [= <-]. destruct (move_player_frame kb dt p) as (-> & _).
  by apply (Hm PLAYER p).
Qed.

Lemma insert_keeps_some (sp : Sprites) l s l' :
  is_Some (sp !! l') -> is_Some (<[l := s]> sp !! l').
Proof. rewrite lookup_insert. case_decide; eauto. Qed.

#[export] Hint Resolve insert_keeps_some : game.

(** Split a completed frame [Hf : frame fi e g = Ok (e', g')] into its
    phases, in the order [game_logic] runs them, naming the result and the
    equation of each; [e'] and [g'] are replaced by the final state. *)
Ltac frame_phases Hf w sp2 g3 sp3 g4 sp4 g5 t5 Hw Hsp2 Hc Ht Hreset :=
  unfold frame, game_logic in Hf;
  cbn [begin_frame sprites texts keyboard_state mouse_state collision_events
       delta delta_f32 audio should_exit] in Hf;
  apply rbind_Ok in Hf as (? & _ & Hf); apply rbind_Ok in Hf as (? & _ & Hf);
  apply rbind_Ok in Hf as (w & Hw & Hf); apply rbind_Ok in Hf as (sp2 & Hsp2 & Hf);
  apply rbind_Ok in Hf as ([g3 sp3] & Hc & Hf); apply rbind_Ok in Hf as ([g4 sp4] & Ht & Hf);
  apply rbind_Ok in Hf as ([g5 t5] & Hreset & Hf); cbn [fst snd] in *;
  injection Hf as <- <-.

(** The reset phase on the score invariant. *)
Lemma reset_phase kb g4 t g5 t5 :
  score_inv g4 t ->
  (if pressed kb KeyR then reset_current g4 t else Ok (g4, t)) = Ok (g5, t5) ->
  g5 = with_scores g4 (high_score g4) (if pressed kb KeyR then 0 else current_score g4)
  /\ score_inv g5 t5.
Proof.
  intros Hs4 Hreset. destruct (pressed kb KeyR).
  - destruct (reset_current_spec _ _ Hs4) as (t' & Heq & _ & Hinv).
    rewrite Heq in Hreset. by injection Hreset as <- <-.
  - injection Hreset as <- <-. by destruct g4.
Qed.

(** The reset phase keeps the high score and the counter. *)
Lemma reset_phase_keeps (b : bool) g4 t t' g5 t5 :
  (if b then reset_current g4 t else Ok (g4, t')) = Ok (g5, t5) ->
  high_score g5 = high_score g4 /\ ferris_index g5 = ferris_index g4.
Proof.
  destruct b; [unfold reset_current|]; intros H; result_inv;
    simplify_eq/=; auto.
Qed.

(** A completed frame never lowers the high score, and mints at most two
    labels: the click's under the old counter, the timer's under the old
    counter or the next one. *)
Lemma frame_counters fi e g e' g' :
  game_inv e g -> frame fi e g = Ok (e', g') ->
  high_score g <= high_score g'
  /\ ferris_index g <= ferris_index g' <= ferris_index g + 2.
Proof.
  intros (Hp & Hm & Hs & _) Hf. frame_phases Hf w sp2 g3 sp3 g4 sp4 g5 t5 Hw Hsp2 Hc Ht Hreset.
  pose proof (drain_spec (fi_events fi) (mkWorld (sprites e) (g, texts e) (audio e)) Hs) as Hds.
  rewrite Hw in Hds. destruct Hds as (_ & _ & Hh1 & _). simpl in Hh1.
  destruct (drain_game _ _ _ _ _ _ Hs Hm Hp Hw) as (_ & Hi1 & _).
  destruct (click_spawn_frame _ _ _ _ _ Hc) as (Hh3 & _ & Hi3 & _).
  destruct (timer_spawn_frame _ _ _ _ _ _ Ht) as (Hh4 & _ & Hi4 & _).
  destruct (reset_phase_keeps _ _ _ _ _ _ Hreset) as [Hh5 Hi5]. lia.
Qed.

(** ** The invariant *)

(** C1: every frame that completes keeps the game invariant: the player
    exists, every sprite is stored under its own label, minted from an index
    below [ferris_index] (or the player's), the score invariant holds, the
    counter is a [u32], and the spawn timer is the two-second repeating
    one. *)
Theorem frame_preserves_inv fi e g e' g' :
  game_inv e g -> frame fi e g = Ok (e', g') -> game_inv e' g'.
Proof.
  intros (Hp & Hm & Hs & Hi & Hr & Hd) Hf.
  frame_phases Hf w sp2 g3 sp3 g4 sp4 g5 t5 Hw Hsp2 Hc Ht Hreset.
  destruct (drain_game _ _ _ _ _ _ Hs Hm Hp Hw) as (Hs1 & Hi1 & Ht1 & Hm1 & Hp1).
  destruct (move_game (fi_keyboard fi) (fi_delta_f32 fi) _ _ Hm1 Hp1)
    as (sp2' & Hsp2' & Hm2 & Hp2).
  rewrite Hsp2 in Hsp2'. injection Hsp2' as <-. rewrite <- Hi1 in Hm2.
  pose proof (click_spawn_spec (fi_mouse fi) _ _ Hm2) as Hcs. rewrite Hc in Hcs.
  destruct Hcs as (Hm3 & Hh3 & Hc3 & Ht3 & Hcase3).
  pose proof (timer_spawn_spec (fi_delta fi) (fi_random fi) _ _ Hm3) as Hts.
  rewrite Ht in Hts. destruct Hts as (Hm4 & Hh4 & Hc4 & Ht4 & Hcase4).
  assert (Hs4 : score_inv g4 (w_score w).2).
  { unfold score_inv in *. by rewrite Hh4, Hc4, Hh3, Hc3. }
  destruct (reset_phase _ _ _ _ _ Hs4 Hreset) as [-> Hs5].
  unfold game_inv; simpl. split_and!; [| |done| | |].
  - destruct (decide (location (fi_mouse fi) = None)); repeat case_match;
      simplify_eq/=; naive_solver eauto with game.
  - done.
  - eapply timer_spawn_u32; [|exact Ht]. eapply click_spawn_u32; [|exact Hc]. by rewrite Hi1.
  - by rewrite Ht4, Ht3, Ht1; apply Timer.tick_repeating_repeating.
  - by rewrite Ht4, Timer.tick_duration, Ht3, Ht1.
Qed.

(** The state [main] hands to the loop. *)
Lemma initial_eq :
  initial = Ok (mkEngine {[PLAYER := mkSprite PLAYER RacingCarBlue Vec2_ZERO SOUTH_WEST true]}
                  (main_texts ∅)
                  (mkKeyboard [] []) (mkMouse [] None) [] 0 f32_zero
                  [PlayMusic WhimsicalPopsicle (f32_lit 1 10)] false false,
                GameState_default).
Proof. vm_compute. reflexivity. Qed.

Lemma initial_inv e g : initial = Ok (e, g) -> game_inv e g.
Proof.
  rewrite initial_eq. intros [= <- <-].
  unfold game_inv. cbn [sprites texts ferris_index spawn_timer GameState_default].
  split_and!; [by rewrite lookup_singleton_eq| | |vm_compute; discriminate|done|done].
  - intros l s. rewrite lookup_singleton_Some. intros [<- <-]. split; [done|by left].
  - unfold score_inv; simpl. split_and!; [lia|vm_compute; discriminate|right; split; reflexivity..].
Qed.

(** C3: the invariant holds in every state the game reaches from [main]
    (by induction on the frames). *)
Theorem reachable_inv e g : reachable (e, g) -> game_inv e g.
Proof.
  remember (e, g) as s eqn:Hs. intros Hr. revert e g Hs.
  induction Hr as [s Hinit|s s' Hr IH Hstep]; intros e g ->.
  - by apply initial_inv.
  - inversion Hstep as [fi e0 g0 e' g' _ Hf]; subst.
    eapply frame_preserves_inv; [by apply IH|done].
Qed.

(** ** Panics *)

(** C2: a frame from a state satisfying the invariant never panics on a
    missing sprite or text ([unwrap]) nor on a duplicate label: the only
    panics are the [u32] overflows, of the current score when the batch
    has more scoring events than room below [u32::MAX], and of the spawn
    counter when it is within two of [u32::MAX]. *)
Theorem frame_panics_only_overflow fi e g p :
  game_inv e g -> frame fi e g = Err p ->
  (p = Overflow "current_score" /\ U32_MAX < current_score g + score_count (fi_events fi))
  \/ (p = Overflow "ferris_index" /\ U32_MAX < ferris_index g + 2).
Proof.
  intros (Hp & Hm & Hs & Hi & Hr & Hd) Hf. unfold frame, game_logic in Hf. simpl in Hf.
  destruct (score_inv_texts _ _ Hs) as [[x1 Hx1] [x2 Hx2]].
  rewrite Hx1, Hx2 in Hf. cbn [rbind unwrap] in Hf.
  destruct (drain _ _) as [w|q] eqn:Hw; cbn [rbind] in Hf.
  2:{ pose proof (drain_spec (fi_events fi) (mkWorld (sprites e) (g, texts e) (audio e)) Hs)
        as Hds. rewrite Hw in Hds. injection Hf as <-. by left. }
  destruct (drain_game _ _ _ _ _ _ Hs Hm Hp Hw) as (Hs1 & Hi1 & Ht1 & Hm1 & Hp1).
  destruct (move_game (fi_keyboard fi) (fi_delta_f32 fi) _ _ Hm1 Hp1) as (sp2 & Hmv & Hm2 & _).
  rewrite Hmv in Hf. cbn [rbind] in Hf. rewrite <- Hi1 in Hm2.
  pose proof (click_spawn_spec (fi_mouse fi) _ _ Hm2) as Hcs.
  destruct (click_spawn _ _ _) as [[g3 sp3]|q] eqn:Hc; cbn [rbind] in Hf.
  2:{ injection Hf as <-. destruct Hcs as [-> ?]. right. split; [done|lia]. }
  destruct Hcs as (Hm3 & Hh3 & Hc3 & _).
  pose proof (timer_spawn_spec (fi_delta fi) (fi_random fi) _ _ Hm3) as Hts.
  destruct (timer_spawn _ _ _ _) as [[g4 sp4]|q] eqn:Ht; cbn [rbind] in Hf.
  2:{ injection Hf as <-. destruct Hts as [-> ?]. right. split; [done|].
      pose proof (click_spawn_index _ _ _ _ _ Hc). lia. }
  destruct Hts as (_ & Hh4 & Hc4 & _).
  assert (Hs4 : score_inv g4 (w_score w).2).
  { unfold score_inv in *. by rewrite Hh4, Hc4, Hh3, Hc3. }
  destruct (pressed _ _); cbn [rbind] in Hf; [|discriminate].
  destruct (reset_current_spec _ _ Hs4) as (t' & Heq & _). simpl in Hf. rewrite Heq in Hf. discriminate.
Qed.

(** ** What a frame does to the scores, the exit flag and the outputs *)

(** C6: a completed frame, from the invariant: the current score becomes
    the old one plus the number of scoring events, or 0 when [R] is held
    (the reset comes after the collisions); the high score becomes the
    maximum of the old one and that sum, reset or not; the exit flag is
    raised by a fresh [Q] and never lowered; the event queue is drained;
    one sound is queued per scoring event. *)
Theorem frame_scores fi e g e' g' :
  game_inv e g -> frame fi e g = Ok (e', g') ->
  let c := current_score g + score_count (fi_events fi) in
  high_score g' = N.max (high_score g) c
  /\ current_score g' = (if pressed (fi_keyboard fi) KeyR then 0 else c)
  /\ should_exit e' = key_just_pressed (fi_keyboard fi) KeyQ || should_exit e
  /\ collision_events e' = []
  /\ audio e' = audio e ++ replicate (length (filter scores (fi_events fi))) score_sfx.
Proof.
  intros (Hp & Hm & Hs & Hi & Hr & Hd) Hf.
  frame_phases Hf w sp2 g3 sp3 g4 sp4 g5 t5 Hw Hsp2 Hc Ht Hreset.
  pose proof (drain_spec (fi_events fi) (mkWorld (sprites e) (g, texts e) (audio e)) Hs) as Hds.
  rewrite Hw in Hds. destruct Hds as (Hs1 & Hc1 & Hh1 & _ & Ha1). simpl in Hc1, Hh1, Ha1.
  destruct (drain_game _ _ _ _ _ _ Hs Hm Hp Hw) as (_ & Hi1 & _ & Hm1 & Hp1).
  destruct (move_game (fi_keyboard fi) (fi_delta_f32 fi) _ _ Hm1 Hp1) as (sp2' & Hsp2' & Hm2 & _).
  rewrite Hsp2 in Hsp2'. injection Hsp2' as <-. rewrite <- Hi1 in Hm2.
  pose proof (click_spawn_spec (fi_mouse fi) _ _ Hm2) as Hcs. rewrite Hc in Hcs.
  destruct Hcs as (Hm3 & Hh3 & Hc3 & _).
  pose proof (timer_spawn_spec (fi_delta fi) (fi_random fi) _ _ Hm3) as Hts.
  rewrite Ht in Hts. destruct Hts as (_ & Hh4 & Hc4 & _).
  assert (Hs4 : score_inv g4 (w_score w).2).
  { unfold score_inv in *. by rewrite Hh4, Hc4, Hh3, Hc3. }
  destruct (reset_phase _ _ _ _ _ Hs4 Hreset) as [-> _]. simpl.
  split_and!; [congruence| |by destruct (key_just_pressed _ _)|done|done].
  destruct (pressed _ _); congruence.
Qed.

(** C17: what a completed frame does to the sprites, from the invariant:
    the player is moved by the held keys over the frame's time; every
    other sprite is gone exactly when a scoring event of the frame named
    it, and is otherwise as it was, except under the (at most two) labels
    the frame mints: ["ferris<i>"] and ["Ferris<i>"] or ["Ferris<i+1>"]
    for the counter [i] at the start of the frame. *)
Theorem frame_sprites fi e g e' g' :
  game_inv e g -> frame fi e g = Ok (e', g') ->
  sprites e' !! PLAYER = move_player (fi_keyboard fi) (fi_delta_f32 fi) <$> sprites e !! PLAYER
  /\ forall l, l <> PLAYER -> l <> click_label (ferris_index g) ->
       l <> timer_label (ferris_index g) -> l <> timer_label (ferris_index g + 1) ->
       sprites e' !! l = if bool_decide (l ∈ removed_labels (fi_events fi)) then None
                         else sprites e !! l.
Proof.
  intros (Hp & Hm & Hs & _) Hf.
  frame_phases Hf w sp2 g3 sp3 g4 sp4 g5 t5 Hw Hsp2 Hc Ht Hreset.
  pose proof (drain_spec (fi_events fi) (mkWorld (sprites e) (g, texts e) (audio e)) Hs) as Hds.
  rewrite Hw in Hds. destruct Hds as (_ & _ & _ & Hl & _). simpl in Hl.
  destruct (drain_game _ _ _ _ _ _ Hs Hm Hp Hw) as (_ & Hi1 & _).
  pose proof (drain_keeps_player (fi_events fi) (mkWorld (sprites e) (g, texts e) (audio e)) w Hs Hw)
    as Hpl. simpl in Hpl.
  destruct Hp as [p Hp]. unfold update_sprite in Hsp2. rewrite Hpl, Hp in Hsp2.
  injection Hsp2 as <-.
  destruct (click_spawn_frame _ _ _ _ _ Hc) as (_ & _ & Hi3 & Ho3).
  destruct (timer_spawn_frame _ _ _ _ _ _ Ht) as (_ & _ & Hi4 & Ho4).
  rewrite Hi1 in Hi3, Ho3. split.
  - rewrite Ho4, Ho3, lookup_insert_eq, Hp;
      [done|apply not_eq_sym, click_label_not_player|apply not_eq_sym, timer_label_not_player].
  - intros l H1 H2 H3 H4.
    assert (l <> timer_label (ferris_index g3)) by (destruct Hi3 as [-> | ->]; done).
    by rewrite Ho4, Ho3, lookup_insert_ne, Hl by done.
Qed.

(** C13: in every reachable state, a frame never panics on a missing
    sprite or text nor on a duplicate label. *)
Corollary reachable_frame_no_lookup_panic e g fi l :
  reachable (e, g) ->
  frame fi e g <> Err (NotFound l) /\ frame fi e g <> Err (DuplicateLabel l).
Proof.
  intros Hr. pose proof (reachable_inv _ _ Hr) as Hinv.
  split; intros Hf; destruct (frame_panics_only_overflow _ _ _ _ Hinv Hf) as [[? _]|[? _]];
    discriminate.
Qed.

(** C19: along any run of frames from a reachable state, the high score
    never decreases and the spawn counter [ferris_index] never decreases
    (spec section 3: the high score is the maximum the current score has
    reached; labels are minted from a counter that only grows). *)
Theorem reachable_monotone s s' :
  reachable s -> rtc step s s' ->
  high_score s.2 <= high_score s'.2 /\ ferris_index s.2 <= ferris_index s'.2.
Proof.
  intros Hr Hrtc. induction Hrtc as [s|s s1 s' Hstep _ IH]; [lia|].
  destruct s as [e g]. pose proof (reachable_inv _ _ Hr) as Hinv.
  inversion Hstep as [fi e0 g0 e1 g1 _ Hf]; subst.
  destruct (frame_counters _ _ _ _ _ Hinv Hf) as [Hh Hi].
  destruct (IH (reachable_step _ _ Hr Hstep)) as [Hh' Hi']. simpl in *. lia.
Qed.

(** ** The loop and the exit key *)

Lemma run_exit fis e g : should_exit e = true -> run fis e g = Ok (e, g, 0%nat).
Proof. intros He. destruct fis; simpl; [done|by rewrite He]. Qed.

(** C12: the loop stops at the frame boundary after the first frame in
    which [Q] was freshly pressed: if the [k]-th frame of the input has
    [Q], at most [k + 1] frames run. *)
Theorem run_stops_after_quit fis e g e' g' n k fi :
  game_inv e g -> run fis e g = Ok (e', g', n) ->
  fis !! k = Some fi -> key_just_pressed (fi_keyboard fi) KeyQ = true ->
  (n <= S k)%nat.
Proof.
  revert e g n k. induction fis as [|fi0 fis IH]; intros e g n k Hinv Hrun Hk HQ; [done|].
  simpl in Hrun. destruct (should_exit e); [injection Hrun as <- <- <-; lia|].
  apply rbind_Ok in Hrun as ([e1 g1] & Hf & Hrun).
  apply rbind_Ok in Hrun as ([[e2 g2] n'] & Hrun' & [= <- <- <-]). simpl in Hrun'.
  destruct k as [|k]; simpl in Hk.
  - injection Hk as ->. destruct (frame_scores _ _ _ _ _ Hinv Hf) as (_ & _ & Hex & _).
    rewrite HQ in Hex. rewrite (run_exit _ _ _ Hex) in Hrun'. injection Hrun' as _ _ <-. lia.
  - pose proof (frame_preserves_inv _ _ _ _ _ Hinv Hf) as Hinv1.
    specialize (IH _ _ _ _ Hinv1 Hrun' Hk HQ). lia.
Qed.

(** ** Concrete frames from the scene of [main] *)

Definition init_engine : Engine :=
  mkEngine {[PLAYER := mkSprite PLAYER RacingCarBlue Vec2_ZERO SOUTH_WEST true]}
    (main_texts ∅)
    (mkKeyboard [] []) (mkMouse [] None) [] 0 f32_zero
    [PlayMusic WhimsicalPopsicle (f32_lit 1 10)] false false.

Lemma init_inv : game_inv init_engine GameState_default.
Proof. apply initial_inv. apply initial_eq. Qed.

(** A frame of 1/60 s in which [Q] and [R] are pressed, the mouse clicks
    at (200, 150) and the player hits a car ["ferris7"]. *)
Definition fi_quit : FrameInput :=
  mkInput (mkKeyboard [KeyR] [KeyQ]) (mkMouse [MouseLeft] (Some (mkVec2 (f32_of_Z 200) (f32_of_Z 150))))
    [ev_begin PLAYER "ferris7"] 16666667 (f32_lit 1 60) (f32_zero, f32_zero).

Definition fi_idle : FrameInput :=
  mkInput (mkKeyboard [] []) (mkMouse [] None) [] 16666667 (f32_lit 1 60) (f32_zero, f32_zero).

Lemma frame_scores_witness :
  exists e' g', frame fi_quit init_engine GameState_default = Ok (e', g')
  /\ (let c := current_score GameState_default + score_count (fi_events fi_quit) in
      high_score g' = N.max (high_score GameState_default) c
      /\ current_score g' = (if pressed (fi_keyboard fi_quit) KeyR then 0 else c)
      /\ should_exit e' = key_just_pressed (fi_keyboard fi_quit) KeyQ || should_exit init_engine
      /\ collision_events e' = []
      /\ audio e' = audio init_engine
                    ++ replicate (length (filter scores (fi_events fi_quit))) score_sfx).
Proof.
  do 2 eexists. split; [vm_eq|].
  apply (frame_scores fi_quit init_engine GameState_default); [apply init_inv|vm_compute; reflexivity].
Defined.

Lemma run_stops_after_quit_witness :
  exists e' g' n, run [fi_idle; fi_quit; fi_idle; fi_idle] init_engine GameState_default
                  = Ok (e', g', n) /\ (n <= 2)%nat.
Proof.
  do 3 eexists. split; [vm_eq|].
  eapply (run_stops_after_quit [fi_idle; fi_quit; fi_idle; fi_idle] init_engine GameState_default
           _ _ _ 1 fi_quit); [apply init_inv|vm_compute; reflexivity..].
Defined.

Lemma reachable_frame_no_lookup_panic_witness :
  frame fi_quit init_engine GameState_default <> Err (NotFound PLAYER)
  /\ frame fi_quit init_engine GameState_default <> Err (DuplicateLabel PLAYER).
Proof.
  apply reachable_frame_no_lookup_panic. apply reachable_init. apply initial_eq.
Defined.

Lemma frame_preserves_inv_witness :
  match frame fi_quit init_engine GameState_default with
  | Ok (e', g') => game_inv e' g'
  | Err _ => False
  end.
Proof.
  destruct (frame fi_quit init_engine GameState_default) as [[e' g']|p] eqn:Hf.
  - exact (frame_preserves_inv _ _ _ _ _ init_inv Hf).
  - vm_compute in Hf. discriminate.
Defined.

Lemma reachable_inv_witness : game_inv init_engine GameState_default.
Proof. apply reachable_inv. apply reachable_init. apply initial_eq. Defined.

(** A game whose current and high score are at [u32::MAX]. *)
Definition g_max : GameState := mkGameState U32_MAX U32_MAX 0 Timer.spawn_timer_init.

Definition e_max : Engine :=
  mkEngine (sprites init_engine)
    (add_text "high_score" (high_score_text U32_MAX) (add_text "score" (score_text U32_MAX) ∅))
    (mkKeyboard [] []) (mkMouse [] None) [] 0 f32_zero [] false false.

Lemma e_max_inv : game_inv e_max g_max.
Proof.
  pose proof init_inv as (Hp & Hm & _ & _ & Hr & Hd).
  unfold game_inv. split_and!; [done|done| |vm_compute; discriminate|done|done].
  unfold score_inv; simpl.
  split_and!; [lia|lia|left; vm_compute; reflexivity|left; vm_compute; reflexivity].
Qed.

Lemma frame_panics_only_overflow_witness :
  (Overflow "current_score" = Overflow "current_score"
   /\ U32_MAX < current_score g_max + score_count (fi_events fi_quit))
  \/ (Overflow "current_score" = Overflow "ferris_index" /\ U32_MAX < ferris_index g_max + 2).
Proof.
  apply (frame_panics_only_overflow fi_quit e_max g_max); [apply e_max_inv|vm_compute; reflexivity].
Defined.

Lemma frame_sprites_witness :
  match frame fi_quit init_engine GameState_default with
  | Ok (e', g') =>
      sprites e' !! PLAYER = move_player (fi_keyboard fi_quit) (fi_delta_f32 fi_quit)
                               <$> sprites init_engine !! PLAYER
      /\ forall l, l <> PLAYER -> l <> click_label (ferris_index GameState_default) ->
           l <> timer_label (ferris_index GameState_default) ->
           l <> timer_label (ferris_index GameState_default + 1) ->
           sprites e' !! l = if bool_decide (l ∈ removed_labels (fi_events fi_quit)) then None
                             else sprites init_engine !! l
  | Err _ => False
  end.
Proof.
  destruct (frame fi_quit init_engine GameState_default) as [[e' g']|p] eqn:Hf.
  - exact (frame_sprites _ _ _ _ _ init_inv Hf).
  - vm_compute in Hf. discriminate.
Defined.

Lemma reachable_monotone_witness :
  match frame fi_quit init_engine GameState_default with
  | Ok (e', g') => high_score GameState_default <= high_score g'
                   /\ ferris_index GameState_default <= ferris_index g'
  | Err _ => False
  end.
Proof.
  destruct (frame fi_quit init_engine GameState_default) as [[e' g']|p] eqn:Hf.
  - apply (reachable_monotone (init_engine, GameState_default) (e', g')).
    + apply reachable_init. apply initial_eq.
    + apply rtc_once. by apply (step_frame fi_quit).
  - vm_compute in Hf. discriminate.
Defined.
